(** * mcp-notion: the rate-limited Notion client and its tool adapter

    A shallow embedding of the [NotionClient] class, of [registerTools]
    with its thirteen tool handlers and [errorResult], and of the argument
    shapes the schemas declare.

    Conventions of the embedding.
    - Times are milliseconds, as [Date.now()] returns them: integers, [Z].
    - The process is single threaded: a piece of code runs without
      interruption up to its next [await].  Sequential code threads a
      [World] (clock and trace of observable events); the concurrent model
      of module [Interleaving] splits [throttle] at its only [await].
    - The remote endpoint is a script: the list of results the successive
      [fetch] calls will produce.  [request] consumes one entry per attempt,
      which is also what makes its recursion (retry on 429) structural.
    - JSON values are a tree whose objects are finite maps; a value handed to
      [JSON.stringify] is kept as the tree it serialises.
    - Strings are byte strings; [Number] and [String] follow ECMAScript on
      ASCII input, with exact rationals in place of binary doubles. *)

From Stdlib Require Import ZArith QArith Qround String Ascii List Lia DecimalString DecimalPos.
From stdpp Require Import gmap strings list fin_maps sorting.

Local Set Warnings "-register-all".
Local Open Scope Z_scope.

(** ** JavaScript values *)

Inductive Json :=
  | JNull
  | JBool (b : bool)
  | JNum (n : Z)
  | JStr (s : string)
  | JArr (l : list Json)
  | JObj (o : gmap string Json).

(** What a [throw] carries: an [Error] object with its message, or any other
    value ([errorResult] distinguishes the two with [instanceof Error]). *)
Inductive Thrown :=
  | ErrorObj (message : string)
  | NonError (v : Json).

Inductive Completion (A : Type) :=
  | Return (a : A)
  | Throw (e : Thrown).
Arguments Return {A} a.
Arguments Throw {A} e.

(** An ECMAScript number: not-a-number, an infinity, or a finite value. *)
Inductive JSNum :=
  | NaN
  | Infinity (negative : bool)
  | Finite (q : Q).

Module JS.

(** [ToBoolean] on the types the client tests with [if (x)]: an absent
    ([undefined]) argument is falsy, the empty string and zero are falsy,
    objects and arrays are always truthy. *)
Class Truthy (A : Type) := truthy : A → bool.
#[export] Instance truthy_string : Truthy string :=
  fun s => match s with EmptyString => false | _ => true end.
#[export] Instance truthy_number : Truthy Z := fun n => negb (n =? 0).
#[export] Instance truthy_object : Truthy (gmap string Json) := fun _ => true.
#[export] Instance truthy_array : Truthy (list (gmap string Json)) := fun _ => true.
#[export] Instance truthy_optional {A} `{Truthy A} : Truthy (option A) :=
  fun x => match x with Some v => truthy v | None => false end.

(** The JSON value an argument becomes when it is stored in a body. *)
Class ToJson (A : Type) := to_json : A → Json.
#[export] Instance json_string : ToJson string := JStr.
#[export] Instance json_number : ToJson Z := JNum.
#[export] Instance json_boolean : ToJson bool := JBool.
#[export] Instance json_object : ToJson (gmap string Json) := JObj.
#[export] Instance json_array : ToJson (list (gmap string Json)) :=
  fun l => JArr (JObj <$> l).

(** [String(n)] for an integer: its decimal digits. *)
Definition String_ (n : Z) : string := NilZero.string_of_int (Z.to_int n).

(** *** [Number(s)]: the StringNumericLiteral grammar *)

Definition is_space (c : ascii) : bool :=
  let n := nat_of_ascii c in
  Nat.eqb n 32 || (Nat.leb 9 n && Nat.leb n 13).

Definition trim (cs : list ascii) : list ascii :=
  let drop_ws := fix go (l : list ascii) :=
    match l with
    | c :: l' => if is_space c then go l' else l
    | [] => []
    end in
  rev (drop_ws (rev (drop_ws cs))).

Definition digit_of (radix : Z) (c : ascii) : option Z :=
  let n := Z.of_nat (nat_of_ascii c) in
  let v := if (48 <=? n) && (n <=? 57) then Some (n - 48)
           else if (97 <=? n) && (n <=? 122) then Some (n - 87)
           else if (65 <=? n) && (n <=? 90) then Some (n - 55)
           else None in
  match v with
  | Some d => if d <? radix then Some d else None
  | None => None
  end.

Fixpoint digits_value (radix acc : Z) (cs : list ascii) : option Z :=
  match cs with
  | [] => Some acc
  | c :: cs' =>
      match digit_of radix c with
      | Some d => digits_value radix (acc * radix + d) cs'
      | None => None
      end
  end.

(** One digit at least. *)
Definition parse_digits (radix : Z) (cs : list ascii) : option Z :=
  match cs with
  | [] => None
  | _ => digits_value radix 0 cs
  end.

Fixpoint split_on (p : ascii → bool) (cs : list ascii)
  : list ascii * option (list ascii) :=
  match cs with
  | [] => ([], None)
  | c :: cs' =>
      if p c then ([], Some cs')
      else let '(before, after) := split_on p cs' in (c :: before, after)
  end.

Definition pow10 (e : Z) : Q :=
  if 0 <=? e then inject_Z (10 ^ e) else Qinv (inject_Z (10 ^ (- e))).

Definition parse_exponent (cs : list ascii) : option Z :=
  match cs with
  | "+"%char :: ds => parse_digits 10 ds
  | "-"%char :: ds => Z.opp <$> parse_digits 10 ds
  | _ => parse_digits 10 cs
  end.

Definition parse_mantissa (cs : list ascii) : option Q :=
  match split_on (Ascii.eqb ".") cs with
  | (ip, None) => inject_Z <$> parse_digits 10 ip
  | ([], Some []) => None
  | (ip, Some fp) =>
      match digits_value 10 0 ip, digits_value 10 0 fp with
      | Some i, Some f =>
          Some (inject_Z i + inject_Z f * pow10 (- Z.of_nat (length fp)))%Q
      | _, _ => None
      end
  end.

Definition parse_unsigned (cs : list ascii) : JSNum :=
  if decide (cs = list_ascii_of_string "Infinity") then Infinity false
  else
    let '(m, e) := split_on (fun c => Ascii.eqb c "e" || Ascii.eqb c "E") cs in
    let ex := match e with
              | None => Some 0
              | Some ecs => parse_exponent ecs
              end in
    match parse_mantissa m, ex with
    | Some q, Some x => Finite (Qred (q * pow10 x))
    | _, _ => NaN
    end.

Definition negate (n : JSNum) : JSNum :=
  match n with
  | NaN => NaN
  | Infinity s => Infinity (negb s)
  | Finite q => Finite (Qred (- q))
  end.

Definition of_radix (radix : Z) (ds : list ascii) : JSNum :=
  match parse_digits radix ds with
  | Some v => Finite (inject_Z v)
  | None => NaN
  end.

Definition Number (s : string) : JSNum :=
  match trim (list_ascii_of_string s) with
  | [] => Finite 0
  | "0"%char :: ("x"%char | "X"%char) :: ds => of_radix 16 ds
  | "0"%char :: ("o"%char | "O"%char) :: ds => of_radix 8 ds
  | "0"%char :: ("b"%char | "B"%char) :: ds => of_radix 2 ds
  | "+"%char :: ds => parse_unsigned ds
  | "-"%char :: ds => negate (parse_unsigned ds)
  | cs => parse_unsigned cs
  end.

(** [a * b] on numbers (no signed zero). *)
Definition mul (a b : JSNum) : JSNum :=
  let sign q := match Qcompare q 0 with Lt => true | _ => false end in
  match a, b with
  | NaN, _ | _, NaN => NaN
  | Infinity s, Infinity s' => Infinity (xorb s s')
  | Infinity s, Finite q | Finite q, Infinity s =>
      if Qeq_bool q 0 then NaN else Infinity (xorb s (sign q))
  | Finite p, Finite q => Finite (Qred (p * q))
  end.

Definition of_Z (n : Z) : JSNum := Finite (inject_Z n).

(** The delay a [setTimeout(f, d)] of the host really uses: Node sets a
    delay that is NaN, below 1 or above 2^31-1 to 1, and truncates a
    fractional one. *)
Definition TIMEOUT_MAX : Z := 2147483647.
Definition timer_ms (d : JSNum) : Z :=
  match d with
  | Finite q =>
      if Qle_bool 1 q && Qle_bool q (inject_Z TIMEOUT_MAX) then Qfloor q else 1
  | _ => 1
  end.

End JS.
Import JS.

(** ** The world around the client *)

(** What [fetch(url, options)] is given. *)
Record Request := {
  method : string;
  url : string;
  headers : gmap string string;
  body : option Json;          (* [options.body]: the value whose JSON text is sent *)
}.

(** What [fetch] resolves to.  [retry_after] is
    [res.headers.get("Retry-After")] ([None] for [null]); [text_result] is
    [None] when reading the body fails; [json_result] is what [res.json()]
    gives: the decoded payload or the decoder's error. *)
Record Response := {
  status : Z;
  statusText : string;
  retry_after : option string;
  text_result : option string;
  json_result : Thrown + Json;
}.

Inductive FetchResult :=
  | Resolved (res : Response)
  | Rejected (e : Thrown).

(** The two places where the client waits on a timer: [throttle], before a
    request is sent, and [request], after a 429. *)
Inductive Site := Admission | Backoff.

Inductive Event :=
  | EvTimer (site : Site) (d : JSNum)   (* [setTimeout(resolve, d)] awaited *)
  | EvStamp (t : Z)                     (* [requestTimestamps.push(t)] *)
  | EvFetch (r : Request).              (* [fetch] called *)

(** [clock] is what [Date.now()] reads.  Time passes only while the code is
    suspended; [slack] lists, for the successive suspensions, how much later
    than asked the code is resumed (how late a timer fires, how long a
    [fetch] takes).  [trace] is chronological. *)
Record World := {
  clock : Z;
  slack : list Z;
  trace : list Event;
}.

Definition log (e : Event) (w : World) : World :=
  {| clock := clock w; slack := slack w; trace := trace w ++ [e] |}.

Definition elapse (ms : Z) (w : World) : World :=
  {| clock := clock w + ms + hd 0 (slack w);
     slack := tl (slack w);
     trace := trace w |}.

(** [await new Promise((resolve) => setTimeout(resolve, d))] *)
Definition sleep (site : Site) (d : JSNum) (w : World) : World :=
  elapse (timer_ms d) (log (EvTimer site d) w).

Definition stamps (tr : list Event) : list Z :=
  omap (fun e => match e with EvStamp t => Some t | _ => None end) tr.

Definition fetches (tr : list Event) : list Request :=
  omap (fun e => match e with EvFetch r => Some r | _ => None end) tr.

(** What the endpoint and the caller can observe of a call: the requests
    sent and the waits after a 429, in order. *)
Definition wire (tr : list Event) : list Event :=
  omap (fun e => match e with
                 | EvFetch _ | EvTimer Backoff _ => Some e
                 | _ => None
                 end) tr.

(** ** [NotionClient] *)

Definition BASE_URL : string := "https://api.notion.com/v1".
Definition NOTION_VERSION : string := "2022-06-28".

Record NotionClient := {
  apiKey : string;
  requestTimestamps : list Z;
}.

Definition MISSING_KEY : string :=
  "NOTION_API_KEY environment variable is not set. " +:+
  "Create an integration at https://www.notion.so/my-integrations".

(** [constructor()], given [process.env.NOTION_API_KEY]. *)
Definition constructor (env_key : option string) : Completion NotionClient :=
  if truthy env_key then
    Return {| apiKey := default "" env_key; requestTimestamps := [] |}
  else Throw (ErrorObj MISSING_KEY).

Definition windowMs : Z := 1000.
Definition maxRequests : nat := 3.

(** [requestTimestamps.filter((ts) => now - ts < windowMs)] *)
Definition prune (now : Z) (ts : list Z) : list Z :=
  filter (fun t => now - t < windowMs) ts.

(** [throttle] up to its [await]: the pruned client and the wait, if any. *)
Definition throttle_check (now : Z) (c : NotionClient) : NotionClient * option Z :=
  let kept := prune now (requestTimestamps c) in
  let c' := {| apiKey := apiKey c; requestTimestamps := kept |} in
  if decide (maxRequests ≤ length kept)%nat then
    let oldest := default 0 (head kept) in
    let waitMs := windowMs - (now - oldest) + 50 in
    if decide (0 < waitMs) then (c', Some waitMs) else (c', None)
  else (c', None).

(** [throttle] after its [await]: [requestTimestamps.push(Date.now())]. *)
Definition throttle_record (now : Z) (c : NotionClient) : NotionClient :=
  {| apiKey := apiKey c; requestTimestamps := requestTimestamps c ++ [now] |}.

Definition throttle (c : NotionClient) (w : World) : NotionClient * World :=
  let '(c1, wait) := throttle_check (clock w) c in
  let w1 := match wait with
            | Some waitMs => sleep Admission (of_Z waitMs) w
            | None => w
            end in
  (throttle_record (clock w1) c1, log (EvStamp (clock w1)) w1).

Definition request_headers (c : NotionClient) : gmap string string :=
  <["Notion-Version" := NOTION_VERSION]>
    (<["Content-Type" := "application/json"]>
       (<["Authorization" := "Bearer " +:+ apiKey c]> ∅)).

Definition is_mutating (m : string) : bool :=
  bool_decide (m = "POST") || bool_decide (m = "PATCH").

(** The [options] of one attempt. *)
Definition build_request (c : NotionClient) (m path : string) (b : option Json)
  : Request :=
  {| method := m;
     url := BASE_URL +:+ path;
     headers := request_headers c;
     body := match b with
             | Some v => if is_mutating m then Some v else None
             | None => None
             end |}.

(** [res.ok] *)
Definition ok (res : Response) : bool := (200 <=? status res) && (status res <=? 299).

(** [retryAfter ? Number(retryAfter) : 1] *)
Definition waitSec (res : Response) : JSNum :=
  match retry_after res with
  | Some retryAfter => if truthy retryAfter then Number retryAfter else of_Z 1
  | None => of_Z 1
  end.

Definition api_error (res : Response) : Thrown :=
  let errorBody := default "" (text_result res) in
  ErrorObj ("Notion API error (" +:+ String_ (status res) +:+ " " +:+
            statusText res +:+ "): " +:+ errorBody).

Definition FETCH_FAILED : Thrown := ErrorObj "fetch failed".

(** The state a call leaves behind: what is left of the endpoint's script,
    the client and the world. *)
Definition Outcome (A : Type) : Type :=
  Completion A * list FetchResult * NotionClient * World.

(** [request(method, path, body)].  An exhausted script makes [fetch] fail
    as a transport failure does. *)
Fixpoint request (m path : string) (b : option Json)
    (srv : list FetchResult) (c : NotionClient) (w : World) : Outcome Json :=
  let '(c1, w1) := throttle c w in
  let w2 := elapse 0 (log (EvFetch (build_request c1 m path b)) w1) in
  match srv with
  | [] => (Throw FETCH_FAILED, [], c1, w2)
  | Rejected e :: srv' => (Throw e, srv', c1, w2)
  | Resolved res :: srv' =>
      if decide (status res = 429) then
        request m path b srv' c1 (sleep Backoff (mul (waitSec res) (of_Z 1000)) w2)
      else if negb (ok res) then (Throw (api_error res), srv', c1, w2)
      else match json_result res with
           | inl e => (Throw e, srv', c1, w2)
           | inr v => (Return v, srv', c1, w2)
           end
  end.

(** ** The per-operation methods *)

(** [if (x) body.key = x] *)
Definition set_if_truthy {A} `{Truthy A, ToJson A}
    (key : string) (x : option A) (o : gmap string Json) : gmap string Json :=
  match x with
  | Some v => if truthy v then <[key := to_json v]> o else o
  | None => o
  end.

(** [if (x !== undefined) body.key = x] *)
Definition set_if_defined {A} `{ToJson A}
    (key : string) (x : option A) (o : gmap string Json) : gmap string Json :=
  match x with
  | Some v => <[key := to_json v]> o
  | None => o
  end.

(** [if (x) params.push(`key=${x}`)] *)
Definition push_if_truthy {A} `{Truthy A}
    (key : string) (show : A → string) (x : option A) (params : list string)
  : list string :=
  match x with
  | Some v => if truthy v then params ++ [key +:+ "=" +:+ show v] else params
  | None => params
  end.

(** [params.join("&")] *)
Fixpoint join (sep : string) (l : list string) : string :=
  match l with
  | [] => ""
  | [s] => s
  | s :: l' => s +:+ sep +:+ join sep l'
  end.

(** [if (params.length > 0) path += `?${params.join("&")}`] *)
Definition with_params (path : string) (params : list string) : string :=
  match params with
  | [] => path
  | _ => path +:+ "?" +:+ join "&" params
  end.

Abbreviation object := (gmap string Json).

Definition search_body (query : option string) (filter sort : option object)
    (startCursor : option string) (pageSize : option Z) : object :=
  set_if_truthy "page_size" pageSize
    (set_if_truthy "start_cursor" startCursor
       (set_if_truthy "sort" sort
          (set_if_truthy "filter" filter
             (set_if_truthy "query" query ∅)))).

Definition search query filter sort startCursor pageSize :=
  request "POST" "/search"
    (Some (JObj (search_body query filter sort startCursor pageSize))).

Definition getDatabase (databaseId : string) :=
  request "GET" ("/databases/" +:+ databaseId) None.

Definition queryDatabase_body (filter : option object)
    (sorts : option (list object)) (startCursor : option string)
    (pageSize : option Z) : object :=
  set_if_truthy "page_size" pageSize
    (set_if_truthy "start_cursor" startCursor
       (set_if_truthy "sorts" sorts
          (set_if_truthy "filter" filter ∅))).

Definition queryDatabase (databaseId : string) filter sorts startCursor pageSize :=
  request "POST" ("/databases/" +:+ databaseId +:+ "/query")
    (Some (JObj (queryDatabase_body filter sorts startCursor pageSize))).

Definition createDatabase_body (parentPageId title : string) (properties : object)
  : object :=
  <["properties" := JObj properties]>
    (<["title" := JArr [JObj (<["text" := JObj (<["content" := JStr title]> ∅)]>
                               (<["type" := JStr "text"]> ∅))]]>
       (<["parent" := JObj (<["page_id" := JStr parentPageId]>
                              (<["type" := JStr "page_id"]> ∅))]> ∅)).

Definition createDatabase (parentPageId title : string) (properties : object) :=
  request "POST" "/databases"
    (Some (JObj (createDatabase_body parentPageId title properties))).

Definition createPage_body (parentId parentType : string) (properties : object)
    (children : option (list object)) : object :=
  set_if_truthy "children" children
    (<["properties" := JObj properties]>
       (<["parent" := JObj (<[parentType := JStr parentId]>
                              (<["type" := JStr parentType]> ∅))]> ∅)).

Definition createPage (parentId parentType : string) properties children :=
  request "POST" "/pages"
    (Some (JObj (createPage_body parentId parentType properties children))).

Definition getPage (pageId : string) :=
  request "GET" ("/pages/" +:+ pageId) None.

Definition updatePage_body (properties : option object) (archived : option bool)
  : object :=
  set_if_defined "archived" archived
    (set_if_truthy "properties" properties ∅).

Definition updatePage (pageId : string) properties archived :=
  request "PATCH" ("/pages/" +:+ pageId)
    (Some (JObj (updatePage_body properties archived))).

Definition getBlock (blockId : string) :=
  request "GET" ("/blocks/" +:+ blockId) None.

Definition page_params (startCursor : option string) (pageSize : option Z)
  : list string :=
  push_if_truthy "page_size" String_ pageSize
    (push_if_truthy "start_cursor" id startCursor []).

Definition getBlockChildren (blockId : string) startCursor pageSize :=
  request "GET"
    (with_params ("/blocks/" +:+ blockId +:+ "/children")
       (page_params startCursor pageSize))
    None.

Definition appendBlockChildren (blockId : string) (children : list object) :=
  request "PATCH" ("/blocks/" +:+ blockId +:+ "/children")
    (Some (JObj (<["children" := to_json children]> ∅))).

Definition deleteBlock (blockId : string) :=
  request "DELETE" ("/blocks/" +:+ blockId) None.

Definition listUsers startCursor pageSize :=
  request "GET" (with_params "/users" (page_params startCursor pageSize)) None.

Definition getUser (userId : string) :=
  request "GET" ("/users/" +:+ userId) None.

(** A call of one of the thirteen methods, with its arguments (an optional
    argument left out is [None]); the tools take the same arguments. *)
Inductive Operation :=
  | Search (query : option string) (filter sort : option object)
      (startCursor : option string) (pageSize : option Z)
  | GetDatabase (databaseId : string)
  | QueryDatabase (databaseId : string) (filter : option object)
      (sorts : option (list object)) (startCursor : option string)
      (pageSize : option Z)
  | CreateDatabase (parentPageId title : string) (properties : object)
  | CreatePage (parentId parentType : string) (properties : object)
      (children : option (list object))
  | GetPage (pageId : string)
  | UpdatePage (pageId : string) (properties : option object)
      (archived : option bool)
  | GetBlock (blockId : string)
  | GetBlockChildren (blockId : string) (startCursor : option string)
      (pageSize : option Z)
  | AppendBlockChildren (blockId : string) (children : list object)
  | DeleteBlock (blockId : string)
  | ListUsers (startCursor : option string) (pageSize : option Z)
  | GetUser (userId : string).

Definition perform (op : Operation)
  : list FetchResult → NotionClient → World → Outcome Json :=
  match op with
  | Search q f s sc ps => search q f s sc ps
  | GetDatabase i => getDatabase i
  | QueryDatabase i f s sc ps => queryDatabase i f s sc ps
  | CreateDatabase p t props => createDatabase p t props
  | CreatePage p pt props ch => createPage p pt props ch
  | GetPage i => getPage i
  | UpdatePage i props a => updatePage i props a
  | GetBlock i => getBlock i
  | GetBlockChildren i sc ps => getBlockChildren i sc ps
  | AppendBlockChildren i ch => appendBlockChildren i ch
  | DeleteBlock i => deleteBlock i
  | ListUsers sc ps => listUsers sc ps
  | GetUser i => getUser i
  end.

(** The arguments [perform] hands to [request]. *)
Definition request_args (op : Operation) : string * string * option Json :=
  match op with
  | Search q f s sc ps => ("POST", "/search", Some (JObj (search_body q f s sc ps)))
  | GetDatabase i => ("GET", "/databases/" +:+ i, None)
  | QueryDatabase i f s sc ps =>
      ("POST", "/databases/" +:+ i +:+ "/query",
       Some (JObj (queryDatabase_body f s sc ps)))
  | CreateDatabase p t props =>
      ("POST", "/databases", Some (JObj (createDatabase_body p t props)))
  | CreatePage p pt props ch =>
      ("POST", "/pages", Some (JObj (createPage_body p pt props ch)))
  | GetPage i => ("GET", "/pages/" +:+ i, None)
  | UpdatePage i props a =>
      ("PATCH", "/pages/" +:+ i, Some (JObj (updatePage_body props a)))
  | GetBlock i => ("GET", "/blocks/" +:+ i, None)
  | GetBlockChildren i sc ps =>
      ("GET", with_params ("/blocks/" +:+ i +:+ "/children") (page_params sc ps),
       None)
  | AppendBlockChildren i ch =>
      ("PATCH", "/blocks/" +:+ i +:+ "/children",
       Some (JObj (<["children" := to_json ch]> ∅)))
  | DeleteBlock i => ("DELETE", "/blocks/" +:+ i, None)
  | ListUsers sc ps => ("GET", with_params "/users" (page_params sc ps), None)
  | GetUser i => ("GET", "/users/" +:+ i, None)
  end.

(** ** The tool adapter *)

(** The text of an envelope: [JSON.stringify(v, null, 2)] of a value, or a
    plain string. *)
Inductive Text :=
  | Serialized (v : Json)
  | Plain (s : string).

(** [{ content: [{ type: "text", text }], isError }]; [isError] is [None]
    where the handler leaves the key out. *)
Record Envelope := {
  text : Text;
  isError : option bool;
}.

(** [errorResult(error)] *)
Definition errorResult (error : Thrown) : Envelope :=
  let message := match error with
                 | ErrorObj m => m
                 | NonError _ => "An unknown error occurred"
                 end in
  {| text := Plain ("Error: " +:+ message); isError := Some true |}.

Definition success (v : Json) : Envelope :=
  {| text := Serialized v; isError := None |}.

(** Reading [v.k] on a decoded value ([None] is [undefined]): [null] and
    [undefined] throw a [TypeError], an object gives its field, an array
    and a string have a [length]. *)
Definition TypeError (k : string) (what : string) : Thrown :=
  ErrorObj ("Cannot read properties of " +:+ what +:+ " (reading '" +:+ k +:+ "')").

Definition get_prop (v : option Json) (k : string) : Completion (option Json) :=
  match v with
  | None => Throw (TypeError k "undefined")
  | Some JNull => Throw (TypeError k "null")
  | Some (JObj o) => Return (o !! k)
  | Some (JArr l) =>
      Return (if decide (k = "length") then Some (JNum (Z.of_nat (length l)))
              else None)
  | Some (JStr s) =>
      Return (if decide (k = "length") then Some (JNum (Z.of_nat (String.length s)))
              else None)
  | Some (JBool _) | Some (JNum _) => Return None
  end.

#[export] Instance Completion_ret : MRet Completion := fun A a => Return a.
#[export] Instance Completion_bind : MBind Completion := fun A B f m =>
  match m with
  | Return a => f a
  | Throw e => Throw e
  end.

(** An object literal as [JSON.stringify] prints it: a key whose value is
    [undefined] is left out. *)
Fixpoint literal (fields : list (string * option Json)) : object :=
  match fields with
  | [] => ∅
  | (k, Some v) :: rest => <[k := v]> (literal rest)
  | (_, None) :: rest => literal rest
  end.

(** [{ total: result.results.length, hasMore: result.has_more,
       nextCursor: result.next_cursor, <items>: result.results }] *)
Definition listing (items : string) (result : Json) : Completion Json :=
  results ← get_prop (Some result) "results";
  total ← get_prop results "length";
  hasMore ← get_prop (Some result) "has_more";
  nextCursor ← get_prop (Some result) "next_cursor";
  Return (JObj (literal [("total", total); ("hasMore", hasMore);
                         ("nextCursor", nextCursor); (items, results)])).

(** [{ success: true, <key>: result }] *)
Definition mutation (key : string) (result : Json) : Json :=
  JObj (literal [("success", Some (JBool true)); (key, Some result)]).

(** The value each handler serialises on success. *)
Definition shape (op : Operation) (result : Json) : Completion Json :=
  match op with
  | Search _ _ _ _ _ => listing "results" result
  | GetDatabase _ => Return result
  | QueryDatabase _ _ _ _ _ => listing "results" result
  | CreateDatabase _ _ _ => Return (mutation "database" result)
  | CreatePage _ _ _ _ => Return (mutation "page" result)
  | GetPage _ => Return result
  | UpdatePage _ _ _ => Return (mutation "page" result)
  | GetBlock _ => Return result
  | GetBlockChildren _ _ _ => listing "blocks" result
  | AppendBlockChildren _ _ =>
      blocks ← get_prop (Some result) "results";
      Return (JObj (literal [("success", Some (JBool true)); ("blocks", blocks)]))
  | DeleteBlock _ =>
      archived ← get_prop (Some result) "archived";
      Return (JObj (literal [("success", Some (JBool true));
                             ("archived", archived); ("block", Some result)]))
  | ListUsers _ _ =>
      results ← get_prop (Some result) "results";
      total ← get_prop results "length";
      hasMore ← get_prop (Some result) "has_more";
      Return (JObj (literal [("total", total); ("hasMore", hasMore);
                             ("users", results)]))
  | GetUser _ => Return result
  end.

(** The process: its environment variable and the [_client] that
    [registerTools] keeps in its closure. *)
Record Adapter := {
  NOTION_API_KEY : option string;
  _client : option NotionClient;
}.

(** [registerTools(server)]: declares the tools; no client is built yet. *)
Definition registerTools (env_key : option string) : Completion Adapter :=
  Return {| NOTION_API_KEY := env_key; _client := None |}.

(** [getClient()] *)
Definition getClient (a : Adapter) : Completion NotionClient :=
  match _client a with
  | Some c => Return c
  | None => constructor (NOTION_API_KEY a)
  end.

(** A tool handler: [try { ... } catch (error) { return errorResult(error) }]. *)
Definition invoke (op : Operation) (srv : list FetchResult) (a : Adapter)
    (w : World) : Envelope * list FetchResult * Adapter * World :=
  match getClient a with
  | Throw e => (errorResult e, srv, a, w)
  | Return c =>
      let '(r, srv', c', w') := perform op srv c w in
      let a' := {| NOTION_API_KEY := NOTION_API_KEY a; _client := Some c' |} in
      match r with
      | Throw e => (errorResult e, srv', a', w')
      | Return result =>
          match shape op result with
          | Throw e => (errorResult e, srv', a', w')
          | Return v => (success v, srv', a', w')
          end
      end
  end.

(** ** Sequential programs and interleaved calls *)

(** The caller stays idle for [ms] before its next call. *)
Definition idle (ms : Z) (w : World) : World :=
  {| clock := clock w + ms; slack := slack w; trace := trace w |}.

(** Calls made one after the other, each awaited before the next. *)
Fixpoint run (calls : list (Z * Operation)) (srv : list FetchResult)
    (c : NotionClient) (w : World)
  : list (Completion Json) * list FetchResult * NotionClient * World :=
  match calls with
  | [] => ([], srv, c, w)
  | (gap, op) :: rest =>
      let '(r, srv1, c1, w1) := perform op srv c (idle gap w) in
      let '(rs, srv2, c2, w2) := run rest srv1 c1 w1 in
      (r :: rs, srv2, c2, w2)
  end.

(** [s] lies in the window of [windowMs] that ends at [t]. *)
Definition in_window (t s : Z) : Prop := 0 ≤ t - s < windowMs.

Definition window_count (t : Z) (l : list Z) : nat :=
  length (filter (in_window t) l).

(** Among stamps in the order they were made, the fourth after any one comes
    a full window later. *)
Definition spaced (l : list Z) : Prop :=
  ∀ i a b, l !! i = Some a → l !! (i + 3)%nat = Some b → a + windowMs ≤ b.

Module Interleaving.

(** Several calls in flight in one process.  A call runs [throttle] up to
    the [await] in one piece; if it has to wait it is parked with the time
    its timer is due, and pushes its stamp when it is resumed. *)
Record Sched := {
  now : Z;
  client : NotionClient;
  parked : list Z;             (* due times of the suspended calls *)
  sent : list Z;               (* stamps pushed so far, in order *)
}.

Inductive Step :=
  | Tick (ms : Z)              (* time passes *)
  | Begin                      (* a call enters [throttle] *)
  | Resume (i : nat).          (* the timer of parked call [i] fires *)

Definition step (s : Sched) (e : Step) : option Sched :=
  match e with
  | Tick ms =>
      if decide (0 ≤ ms) then
        Some {| now := now s + ms; client := client s;
                parked := parked s; sent := sent s |}
      else None
  | Begin =>
      match throttle_check (now s) (client s) with
      | (c1, Some waitMs) =>
          Some {| now := now s; client := c1;
                  parked := parked s ++ [now s + timer_ms (of_Z waitMs)];
                  sent := sent s |}
      | (c1, None) =>
          Some {| now := now s; client := throttle_record (now s) c1;
                  parked := parked s; sent := sent s ++ [now s] |}
      end
  | Resume i =>
      match parked s !! i with
      | Some due =>
          if decide (due ≤ now s) then
            Some {| now := now s;
                    client := throttle_record (now s) (client s);
                    parked := delete i (parked s);
                    sent := sent s ++ [now s] |}
          else None
      | None => None
      end
  end.

Fixpoint steps (s : Sched) (es : list Step) : option Sched :=
  match es with
  | [] => Some s
  | e :: es' => match step s e with
                | Some s' => steps s' es'
                | None => None
                end
  end.

Definition start (c : NotionClient) (t : Z) : Sched :=
  {| now := t; client := c; parked := []; sent := [] |}.

End Interleaving.

Import Interleaving.

(** ** Definitions used by the statements *)

(** Stamps are in order and in the past, any four in a row span a window,
    the client retains the latest of them and has dropped only stamps that
    left the window, and nothing resumes early. *)
Record Inv (c : NotionClient) (w : World) : Prop := {
  inv_sorted : StronglySorted Z.le (stamps (trace w));
  inv_past : Forall (fun s => s ≤ clock w) (stamps (trace w));
  inv_spaced : spaced (stamps (trace w));
  inv_retained : ∃ old, stamps (trace w) = old ++ requestTimestamps c ∧
                        Forall (fun s => windowMs ≤ clock w - s) old;
  inv_slack : Forall (fun d => 0 ≤ d) (slack w);
}.

(** An answer whose body decodes to [payload]. *)
Definition answer (code : Z) (reason : string) (payload : Json) : Response :=
  {| status := code; statusText := reason; retry_after := None;
     text_result := None; json_result := inr payload |}.

(** A burst: five calls back to back against an endpoint that answers each
    with 200. *)
Definition burst : list (Z * Operation) := replicate 5 (0, GetUser "u").
Definition burst_script : list FetchResult :=
  replicate 5 (Resolved (answer 200 "OK" JNull)).

(** Seven calls entered in the same millisecond, the last four resumed when
    their timers are due. *)
Definition pile_up : list Step :=
  replicate 7 Begin ++ [Tick 1050] ++ replicate 4 (Resume 0).

(** How [request] settles on an answer that is not a 429. *)
Definition settle (f : FetchResult) : Completion Json :=
  match f with
  | Rejected e => Throw e
  | Resolved res =>
      if negb (ok res) then Throw (api_error res)
      else match json_result res with
           | inl e => Throw e
           | inr v => Return v
           end
  end.

Definition not_429 (f : FetchResult) : Prop :=
  match f with
  | Rejected _ => True
  | Resolved res => status res ≠ 429
  end.

(** What the retries put on the wire: for each 429, the request and then the
    wait it asks for. *)
Fixpoint retried (rq : Request) (throttled : list Response) : list Event :=
  match throttled with
  | [] => []
  | res :: rest =>
      EvFetch rq :: EvTimer Backoff (mul (waitSec res) (of_Z 1000))
        :: retried rq rest
  end.

Definition throttled_2s : Response :=
  {| status := 429; statusText := "Too Many Requests"; retry_after := Some "2";
     text_result := Some ""; json_result := inl (ErrorObj "Unexpected end of JSON input") |}.

Definition fresh (key : string) : NotionClient :=
  {| apiKey := key; requestTimestamps := [] |}.

Definition epoch : World := {| clock := 0; slack := []; trace := [] |}.

(** A 429 whose Retry-After is an HTTP date, the other form the header can
    take. *)
Definition throttled_until : Response :=
  {| status := 429; statusText := "Too Many Requests";
     retry_after := Some "Wed, 21 Oct 2015 07:28:00 GMT";
     text_result := Some ""; json_result := inl (ErrorObj "Unexpected end of JSON input") |}.

Definition not_found : Response :=
  {| status := 404; statusText := "Not Found"; retry_after := None;
     text_result := Some "not_found";
     json_result := inl (ErrorObj "Unexpected token o in JSON") |}.

Definition unconfigured : Adapter := {| NOTION_API_KEY := None; _client := None |}.

Definition absent_if_falsy {A} `{Truthy A} (x : option A) : option A :=
  if truthy x then x else None.

Module Wire.

(** The table of operations, as the specification gives it: the method
    and the path of each, the identifier of the resource put in place of
    the placeholder. *)
Definition verb (op : Operation) : string :=
  match op with
  | Search _ _ _ _ _ => "POST"
  | GetDatabase _ => "GET"
  | QueryDatabase _ _ _ _ _ => "POST"
  | CreateDatabase _ _ _ => "POST"
  | CreatePage _ _ _ _ => "POST"
  | GetPage _ => "GET"
  | UpdatePage _ _ _ => "PATCH"
  | GetBlock _ => "GET"
  | GetBlockChildren _ _ _ => "GET"
  | AppendBlockChildren _ _ => "PATCH"
  | DeleteBlock _ => "DELETE"
  | ListUsers _ _ => "GET"
  | GetUser _ => "GET"
  end.

Definition path (op : Operation) : string :=
  match op with
  | Search _ _ _ _ _ => "/search"
  | GetDatabase i => "/databases/" +:+ i
  | QueryDatabase i _ _ _ _ => "/databases/" +:+ i +:+ "/query"
  | CreateDatabase _ _ _ => "/databases"
  | CreatePage _ _ _ _ => "/pages"
  | GetPage i => "/pages/" +:+ i
  | UpdatePage i _ _ => "/pages/" +:+ i
  | GetBlock i => "/blocks/" +:+ i
  | GetBlockChildren i _ _ => "/blocks/" +:+ i +:+ "/children"
  | AppendBlockChildren i _ => "/blocks/" +:+ i +:+ "/children"
  | DeleteBlock i => "/blocks/" +:+ i
  | ListUsers _ _ => "/users"
  | GetUser i => "/users/" +:+ i
  end.

End Wire.

(** The query parameters of the two listings that take them. *)
Definition query_of (op : Operation) : list string :=
  match op with
  | GetBlockChildren _ sc ps | ListUsers sc ps => page_params sc ps
  | _ => []
  end.

(** One page of users, with more to come. *)
Definition users_page : Json :=
  JObj {[ "object" := JStr "list";
          "results" := JArr [JObj {[ "id" := JStr "u1" ]}];
          "has_more" := JBool true;
          "next_cursor" := JStr "cur2" ]}.

Definition configured : Adapter :=
  {| NOTION_API_KEY := Some "secret"; _client := None |}.

(** ** Further definitions: serving tools, kinds of tools, schedules *)

(** Tool invocations made one after the other through one adapter, each
    awaited before the next. *)
Fixpoint serve (calls : list (Z * Operation)) (srv : list FetchResult)
    (a : Adapter) (w : World)
  : list Envelope * list FetchResult * Adapter * World :=
  match calls with
  | [] => ([], srv, a, w)
  | (gap, op) :: rest =>
      let '(e, srv1, a1, w1) := invoke op srv a (idle gap w) in
      let '(es, srv2, a2, w2) := serve rest srv1 a1 w1 in
      (e :: es, srv2, a2, w2)
  end.

(** The tools whose handler serialises the decoded answer as it is. *)
Definition is_getter (op : Operation) : bool :=
  match op with
  | GetDatabase _ | GetPage _ | GetBlock _ | GetUser _ => true
  | _ => false
  end.

(** The tools that list, and the key under which each puts the items. *)
Definition items_key (op : Operation) : option string :=
  match op with
  | Search _ _ _ _ _ | QueryDatabase _ _ _ _ _ => Some "results"
  | GetBlockChildren _ _ _ => Some "blocks"
  | ListUsers _ _ => Some "users"
  | _ => None
  end.

(** How many calls a schedule lets into [throttle]. *)
Fixpoint begun (es : list Step) : nat :=
  match es with
  | [] => 0
  | Begin :: es' => S (begun es')
  | _ :: es' => begun es'
  end.

(** A 200 whose body is cut short. *)
Definition truncated : Response :=
  {| status := 200; statusText := "OK"; retry_after := None;
     text_result := Some "{";
     json_result := inl (ErrorObj "Unexpected end of JSON input") |}.

(** Five tools called back to back. *)
Definition mixed_burst : list (Z * Operation) :=
  [(0, GetUser "u"); (0, ListUsers None None); (0, GetPage "p");
   (0, DeleteBlock "b"); (0, Search None None None None None)].

(** A decimal digit. *)
Definition is_decimal (c : ascii) : bool :=
  match digit_of 10 c with
  | Some _ => true
  | None => false
  end.

(** * Properties *)

(** ** [Number] and [String] on examples *)

Example Number_2 : Number "2" = Finite 2. Proof. reflexivity. Qed.
Example Number_120 : Number " 120 " = Finite 120. Proof. reflexivity. Qed.
Example Number_frac : Number "1.5" = Finite (3 # 2). Proof. reflexivity. Qed.
Example Number_exp : Number "2e3" = Finite 2000. Proof. reflexivity. Qed.
Example Number_hex : Number "0x10" = Finite 16. Proof. reflexivity. Qed.
Example Number_neg : Number "-7" = Finite (-7). Proof. reflexivity. Qed.
Example Number_word : Number "soon" = NaN. Proof. reflexivity. Qed.
Example Number_date : Number "Wed, 21 Oct 2015 07:28:00 GMT" = NaN.
Proof. reflexivity. Qed.
Example Number_inf : Number "Infinity" = Infinity false. Proof. reflexivity. Qed.
Example String_404 : String_ 404 = "404"%string. Proof. reflexivity. Qed.


(** ** Traces and timers *)

Lemma stamps_log_stamp tr t : stamps (tr ++ [EvStamp t]) = stamps tr ++ [t].
Proof. unfold stamps. by rewrite omap_app. Qed.

Lemma stamps_log_timer tr site d : stamps (tr ++ [EvTimer site d]) = stamps tr.
Proof. unfold stamps. rewrite omap_app. simpl. by rewrite app_nil_r. Qed.

Lemma stamps_log_fetch tr r : stamps (tr ++ [EvFetch r]) = stamps tr.
Proof. unfold stamps. rewrite omap_app. simpl. by rewrite app_nil_r. Qed.

Lemma timer_ms_of_Z n : 1 ≤ n ≤ TIMEOUT_MAX → timer_ms (of_Z n) = n.
Proof.
  intros [Hlo Hhi]. unfold timer_ms, of_Z.
  assert (Qle_bool 1 (inject_Z n) = true) as ->.
  { apply Qle_bool_iff. change 1%Q with (inject_Z 1). by rewrite <- Zle_Qle. }
  assert (Qle_bool (inject_Z n) (inject_Z TIMEOUT_MAX) = true) as ->.
  { apply Qle_bool_iff. by rewrite <- Zle_Qle. }
  apply Qfloor_Z.
Qed.

Lemma timer_ms_pos d : 1 ≤ timer_ms d.
Proof.
  destruct d as [| |q]; simpl; try lia.
  destruct (Qle_bool 1 q) eqn:Hq; simpl; try lia.
  destruct (Qle_bool q (inject_Z TIMEOUT_MAX)); try lia.
  apply Qle_bool_iff in Hq. apply Qfloor_resp_le in Hq.
  change (Qfloor 1) with 1 in Hq. done.
Qed.

(** ** The sliding window *)

Lemma prune_all now (l : list Z) :
  Forall (fun t => now - t < windowMs) l → prune now l = l.
Proof.
  unfold prune. induction 1 as [|x l Hx _ IH]; [done|].
  rewrite filter_cons_True by done. by rewrite IH.
Qed.

(** On stamps in order, pruning drops a prefix: the stamps that have left
    the window. *)
Lemma prune_split now (l : list Z) :
  StronglySorted Z.le l →
  ∃ dropped, l = dropped ++ prune now l ∧
             Forall (fun t => windowMs ≤ now - t) dropped.
Proof.
  induction 1 as [|x l Hl IH Hx].
  - by exists [].
  - destruct (decide (now - x < windowMs)) as [Hin|Hout].
    + exists []. split; [|done]. simpl. symmetry. apply prune_all.
      constructor; [done|]. eapply Forall_impl; [exact Hx|]. simpl. lia.
    + destruct IH as (dropped & Heq & Hd). exists (x :: dropped). split.
      * unfold prune in *. rewrite filter_cons_False by done.
        simpl. by rewrite <- Heq.
      * constructor; [lia | done].
Qed.

Lemma prune_kept now (l : list Z) :
  Forall (fun t => now - t < windowMs) (prune now l).
Proof. unfold prune. apply Forall_forall. intros x Hx. by apply list_elem_of_filter in Hx as [? _]. Qed.

Lemma spaced_snoc (l : list Z) t :
  spaced l →
  (∀ i a, l !! i = Some a → (i + 3)%nat = length l → a + windowMs ≤ t) →
  spaced (l ++ [t]).
Proof.
  intros Hl Hnew i a b Ha Hb.
  assert (i + 3 < length (l ++ [t]))%nat as Hlen by (by eapply lookup_lt_Some).
  rewrite length_app in Hlen. simpl in Hlen.
  rewrite lookup_app_l in Ha by lia.
  destruct (decide (i + 3 < length l)%nat).
  - rewrite lookup_app_l in Hb by lia. by eapply Hl.
  - rewrite lookup_app_r in Hb by lia.
    replace (i + 3 - length l)%nat with 0%nat in Hb by lia. simpl in Hb.
    injection Hb as <-. eapply Hnew; [done | lia].
Qed.

(** No window holds four stamps. *)
Lemma window_bound (l : list Z) t :
  StronglySorted Z.le l → spaced l → (window_count t l ≤ 3)%nat.
Proof.
  unfold window_count. induction 1 as [|x l Hl IH Hx]; intros Hsp; [simpl; lia|].
  assert (spaced l) as Hsp'.
  { intros i a b Ha Hb. by apply (Hsp (S i) a b). }
  destruct (decide (in_window t x)) as [Hin|Hout].
  2:{ rewrite filter_cons_False by done. by apply IH. }
  rewrite filter_cons_True by done. simpl.
  destruct l as [|a [|b [|c l]]];
    try (pose proof (length_filter (in_window t) []) ; simpl in *; lia).
  - pose proof (length_filter (in_window t) [a]). simpl in *. lia.
  - pose proof (length_filter (in_window t) [a; b]). simpl in *. lia.
  - assert (x + windowMs ≤ c) as Hc by (by apply (Hsp 0%nat x c)).
    assert (filter (in_window t) (c :: l) = []) as Hnil.
    { destruct (filter (in_window t) (c :: l)) as [|y k] eqn:Hk; [done|].
      assert (y ∈ filter (in_window t) (c :: l)) as Hy by (rewrite Hk; left).
      apply list_elem_of_filter in Hy as [Hw Hy].
      assert (c ≤ y).
      { apply StronglySorted_cons in Hl as [_ Hl].
        apply StronglySorted_cons in Hl as [_ Hl].
        apply elem_of_cons in Hy as [->|Hy]; [lia|].
        apply StronglySorted_cons in Hl as [Hc' _].
        by eapply Forall_forall in Hc'. }
      unfold in_window in *. lia. }
    change (a :: b :: c :: l) with ([a; b] ++ c :: l).
    rewrite filter_app, Hnil, app_nil_r.
    pose proof (length_filter (in_window t) [a; b]). simpl in *. lia.
Qed.

(** ** The invariant of sequential use *)

Lemma slack_hd (l : list Z) : Forall (fun d => 0 ≤ d) l → 0 ≤ hd 0 l.
Proof. destruct 1; simpl; lia. Qed.

Lemma slack_tl (l : list Z) :
  Forall (fun d => 0 ≤ d) l → Forall (fun d => 0 ≤ d) (tl l).
Proof. destruct 1; simpl; done. Qed.

Lemma Inv_later c w (t : Z) (sl : list Z) :
  Inv c w → clock w ≤ t → Forall (fun d => 0 ≤ d) sl →
  Inv c {| clock := t; slack := sl; trace := trace w |}.
Proof.
  intros [Hs Hp Hsp (old & Heq & Hold) Hsl] Ht Hsl'.
  split; simpl; try done.
  - eapply Forall_impl; [exact Hp|]. simpl. lia.
  - exists old. split; [done|]. eapply Forall_impl; [exact Hold|]. simpl. lia.
Qed.

Lemma Inv_elapse c w ms : Inv c w → 0 ≤ ms → Inv c (elapse ms w).
Proof.
  intros H Hms. apply Inv_later; [done| |].
  - pose proof (slack_hd _ (inv_slack _ _ H)). lia.
  - apply slack_tl, H.
Qed.

Lemma Inv_idle c w ms : Inv c w → 0 ≤ ms → Inv c (idle ms w).
Proof. intros H Hms. apply Inv_later; [done|lia|apply H]. Qed.

Lemma Inv_log_timer c w site d : Inv c w → Inv c (log (EvTimer site d) w).
Proof.
  intros [Hs Hp Hsp Hr Hsl].
  split; simpl; rewrite ?stamps_log_timer; done.
Qed.

Lemma Inv_log_fetch c w r : Inv c w → Inv c (log (EvFetch r) w).
Proof.
  intros [Hs Hp Hsp Hr Hsl].
  split; simpl; rewrite ?stamps_log_fetch; done.
Qed.

Lemma Inv_sleep c w site d : Inv c w → Inv c (sleep site d w).
Proof.
  intros H. apply Inv_elapse; [by apply Inv_log_timer|].
  pose proof (timer_ms_pos d). lia.
Qed.

Lemma clock_sleep w site d :
  Forall (fun s => 0 ≤ s) (slack w) → clock w + timer_ms d ≤ clock (sleep site d w).
Proof. intros H. simpl. pose proof (slack_hd _ H). lia. Qed.

(** What [throttle] does from a state of sequential use: with [kept] the
    pruned timestamps, it waits exactly when [kept] has three entries, for
    [windowMs - (now - oldest) + 50], stamps the time [t] at which it is
    resumed, and at most three retained timestamps are in the window that
    ends at [t]. *)
Lemma throttle_sequential c w :
  Inv c w →
  let kept := prune (clock w) (requestTimestamps c) in
  ∃ t w',
    throttle c w = ({| apiKey := apiKey c; requestTimestamps := kept ++ [t] |}, w')
    ∧ clock w' = t
    ∧ Inv {| apiKey := apiKey c; requestTimestamps := kept ++ [t] |} w'
    ∧ (window_count t (kept ++ [t]) ≤ 3)%nat
    ∧ (length kept ≤ 3)%nat
    ∧ ((3 ≤ length kept)%nat →
       let waitMs := windowMs - (clock w - default 0 (head kept)) + 50 in
       50 < waitMs
       ∧ trace w' = trace w ++ [EvTimer Admission (of_Z waitMs); EvStamp t]
       ∧ clock w + waitMs ≤ t)
    ∧ ((length kept < 3)%nat →
       trace w' = trace w ++ [EvStamp t] ∧ t = clock w).
Proof.
  intros HI kept.
  pose proof HI as [Hs Hp Hsp (old & Heq & Hold) Hsl].
  destruct (prune_split (clock w) (requestTimestamps c)) as (dropped & Hrt & Hdr).
  { rewrite Heq in Hs. by apply StronglySorted_app_1_r in Hs. }
  fold kept in Hrt.
  assert (Hkept : Forall (fun t => clock w - t < windowMs) kept) by apply prune_kept.
  set (old' := old ++ dropped).
  assert (Heq' : stamps (trace w) = old' ++ kept).
  { unfold old'. rewrite <- app_assoc, <- Hrt. done. }
  assert (Hold' : Forall (fun s => windowMs ≤ clock w - s) old').
  { unfold old'. by apply Forall_app. }
  assert (Hpk : Forall (fun s => s ≤ clock w) kept).
  { rewrite Heq' in Hp. by apply Forall_app in Hp as [_ ?]. }
  assert (Hlen : (length kept ≤ 3)%nat).
  { destruct kept as [|a [|b [|b' [|d k]]]] eqn:Hk; simpl; try lia.
    exfalso.
    assert (a + windowMs ≤ d) as Hgap.
    { apply (Hsp (length old') a d); rewrite Heq'.
      - rewrite lookup_app_r by lia. by rewrite Nat.sub_diag.
      - rewrite lookup_app_r by lia.
        by replace (length old' + 3 - length old')%nat with 3%nat by lia. }
    apply Forall_cons in Hkept as [Ha _].
    do 3 apply Forall_cons in Hpk as [_ Hpk]. apply Forall_cons in Hpk as [Hd _].
    lia. }
  unfold throttle, throttle_check. fold kept.
  destruct (decide (maxRequests ≤ length kept)%nat) as [Hfull|Hroom].
  - (* three stamps in the window: wait for the oldest to leave it *)
    unfold maxRequests in Hfull.
    destruct kept as [|a [|b [|b' [|d k]]]] eqn:Hk; simpl in Hfull, Hlen; try lia.
    simpl head. simpl default.
    apply Forall_cons in Hkept as [Ha _].
    pose proof Hpk as Hpk'. apply Forall_cons in Hpk' as [Ha' _].
    set (waitMs := windowMs - (clock w - a) + 50).
    assert (50 < waitMs ≤ 1050) as Hwait by (unfold waitMs, windowMs in *; lia).
    destruct (decide (0 < waitMs)) as [_|]; [|lia].
    remember (sleep Admission (of_Z waitMs) w) as w1 eqn:Hw1.
    assert (Hclk : clock w + waitMs ≤ clock w1).
    { rewrite Hw1. pose proof (clock_sleep w Admission (of_Z waitMs) Hsl) as Hc.
      rewrite timer_ms_of_Z in Hc by (unfold TIMEOUT_MAX; lia). done. }
    exists (clock w1), (log (EvStamp (clock w1)) w1).
    split; [done|]. split; [done|].
    assert (HI1 : Inv c w1) by (rewrite Hw1; by apply Inv_sleep).
    split; [|split; [|split; [simpl; lia|split]]].
    + destruct HI1 as [Hs1 Hp1 Hsp1 _ Hsl1].
      assert (Hst : stamps (trace w1) = old' ++ [a; b; b']).
      { rewrite Hw1. simpl. by rewrite stamps_log_timer. }
      split; simpl; rewrite ?stamps_log_stamp.
      * apply StronglySorted_app_2; [|done|repeat constructor].
        intros x y Hx Hy. apply list_elem_of_singleton in Hy as ->.
        by eapply Forall_forall in Hp1.
      * apply Forall_app. split; [done|]. by repeat constructor.
      * apply spaced_snoc; [done|]. intros i x Hx Hi.
        rewrite Hst in Hx, Hi. rewrite length_app in Hi. simpl in Hi.
        rewrite lookup_app_r in Hx by lia.
        replace (i - length old')%nat with 0%nat in Hx by lia.
        injection Hx as <-. unfold waitMs in Hclk. lia.
      * exists old'. rewrite Hst. split; [by rewrite <- app_assoc|].
        eapply Forall_impl; [exact Hold'|]. simpl. lia.
      * done.
    + unfold window_count. simpl.
      rewrite filter_cons_False by (unfold in_window, waitMs in *; lia).
      pose proof (length_filter (in_window (clock w1)) [b; b'; clock w1]).
      simpl in *. lia.
    + intros _. simpl. split; [lia|]. split; [|done].
      rewrite Hw1. simpl. by rewrite <- app_assoc.
    + simpl. lia.
  - (* room in the window: stamp at once *)
    unfold maxRequests in Hroom.
    exists (clock w), (log (EvStamp (clock w)) w).
    split; [done|]. split; [done|].
    split; [|split; [|split; [done|split; [lia|done]]]].
    + split; simpl; rewrite ?stamps_log_stamp.
      * apply StronglySorted_app_2; [|done|repeat constructor].
        intros x y Hx Hy. apply list_elem_of_singleton in Hy as ->.
        by eapply Forall_forall in Hp.
      * apply Forall_app. split; [done|]. repeat constructor. lia.
      * apply spaced_snoc; [done|]. intros i x Hx Hi.
        rewrite Heq' in Hx, Hi. rewrite length_app in Hi.
        rewrite lookup_app_l in Hx by lia.
        assert (x ∈ old') as Hin by (by eapply list_elem_of_lookup_2).
        eapply Forall_forall in Hold'; [|exact Hin]. simpl in Hold'. lia.
      * exists old'. rewrite Heq'. split; [by rewrite <- app_assoc|done].
      * done.
    + unfold window_count.
      pose proof (length_filter (in_window (clock w)) (kept ++ [clock w])) as Hf.
      rewrite length_app in Hf. simpl in Hf. lia.
Qed.

Lemma throttle_Inv c w c' w' : Inv c w → throttle c w = (c', w') → Inv c' w'.
Proof.
  intros HI Ht. destruct (throttle_sequential c w HI) as (t & w1 & Heq & _ & HI' & _).
  rewrite Heq in Ht. by injection Ht as <- <-.
Qed.

Lemma throttle_stamps c w c' w' :
  throttle c w = (c', w') →
  stamps (trace w') = stamps (trace w) ++ [clock w'] ∧ apiKey c' = apiKey c.
Proof.
  unfold throttle. destruct (throttle_check (clock w) c) as [c1 wait] eqn:Hc.
  intros H. injection H as <- <-. simpl. rewrite stamps_log_stamp. split.
  - destruct wait; simpl; by rewrite ?stamps_log_timer.
  - unfold throttle_check in Hc. repeat case_decide; by injection Hc as <- _.
Qed.

(** One unfolding of [request]. *)
Lemma request_eq m path b srv c w :
  request m path b srv c w =
  let '(c1, w1) := throttle c w in
  let w2 := elapse 0 (log (EvFetch (build_request c1 m path b)) w1) in
  match srv with
  | [] => (Throw FETCH_FAILED, [], c1, w2)
  | Rejected e :: srv' => (Throw e, srv', c1, w2)
  | Resolved res :: srv' =>
      if decide (status res = 429) then
        request m path b srv' c1 (sleep Backoff (mul (waitSec res) (of_Z 1000)) w2)
      else if negb (ok res) then (Throw (api_error res), srv', c1, w2)
      else match json_result res with
           | inl e => (Throw e, srv', c1, w2)
           | inr v => (Return v, srv', c1, w2)
           end
  end.
Proof. by destruct srv. Qed.

Lemma request_Inv m path b srv : ∀ c w r srv' c' w',
  Inv c w → request m path b srv c w = (r, srv', c', w') →
  Inv c' w' ∧ (length (stamps (trace w)) < length (stamps (trace w')))%nat.
Proof.
  induction srv as [|f srv IH]; intros c w r srv' c' w' HI;
    rewrite request_eq; destruct (throttle c w) as [c1 w1] eqn:Ht;
    pose proof (throttle_Inv _ _ _ _ HI Ht) as HI1;
    apply throttle_stamps in Ht as [Hst _];
    assert (HI2 : Inv c1 (elapse 0 (log (EvFetch (build_request c1 m path b)) w1)))
      by (apply Inv_elapse; [by apply Inv_log_fetch|lia]);
    assert (Hlen : (length (stamps (trace w)) <
                    length (stamps (trace (elapse 0
                      (log (EvFetch (build_request c1 m path b)) w1)))))%nat)
      by (simpl; rewrite stamps_log_fetch, Hst, length_app; simpl; lia).
  - intros H. by injection H as <- <- <- <-.
  - destruct f as [res|e].
    + destruct (decide (status res = 429)).
      * intros H. eapply IH in H as [? Hlt]; [|by apply Inv_sleep].
        split; [done|]. simpl in Hlt, Hlen. rewrite stamps_log_timer in Hlt. lia.
      * destruct (negb (ok res)); [intros H; by injection H as <- <- <- <-|].
        destruct (json_result res); intros H; by injection H as <- <- <- <-.
    + intros H. by injection H as <- <- <- <-.
Qed.

Lemma perform_request op :
  perform op = let '(m, path, b) := request_args op in request m path b.
Proof. by destruct op. Qed.

Lemma perform_Inv op srv c w r srv' c' w' :
  Inv c w → perform op srv c w = (r, srv', c', w') →
  Inv c' w' ∧ (length (stamps (trace w)) < length (stamps (trace w')))%nat.
Proof.
  rewrite perform_request. destruct (request_args op) as [[m path] b].
  apply request_Inv.
Qed.

Lemma run_Inv calls : ∀ srv c w rs srv' c' w',
  Forall (fun call => 0 ≤ call.1) calls →
  Inv c w → run calls srv c w = (rs, srv', c', w') →
  Inv c' w' ∧
  (length (stamps (trace w)) + length calls ≤ length (stamps (trace w')))%nat.
Proof.
  induction calls as [|[gap op] calls IH]; intros srv c w rs srv' c' w' Hgaps HI; simpl.
  - intros H. injection H as <- <- <- <-. split; [done|lia].
  - apply Forall_cons in Hgaps as [Hgap Hgaps]. simpl in Hgap.
    destruct (perform op srv c (idle gap w)) as [[[r1 srv1] c1] w1] eqn:Hp.
    destruct (run calls srv1 c1 w1) as [[[rs2 srv2] c2] w2] eqn:Hr.
    intros H. injection H as <- <- <- <-.
    eapply perform_Inv in Hp as [HI1 Hlt]; [|by apply Inv_idle].
    eapply IH in Hr as [HI2 Hle]; [|done|done].
    split; [done|]. simpl in Hlt. lia.
Qed.

Lemma Inv_fresh key t0 sl :
  Forall (fun d => 0 ≤ d) sl →
  Inv {| apiKey := key; requestTimestamps := [] |}
      {| clock := t0; slack := sl; trace := [] |}.
Proof.
  intros Hsl. split; simpl.
  - constructor.
  - constructor.
  - intros i a b Ha. by rewrite lookup_nil in Ha.
  - by exists [].
  - done.
Qed.

(** C1.  Calls made one after the other through a fresh client, whatever the
    operations, the endpoint's answers, the pauses between calls and the
    lateness of timers: every call is stamped (none is dropped), no window
    of 1000 ms holds four stamps, the fourth stamp after any one is at
    least 1000 ms later, and the next admission check, when it finds three
    retained timestamps in the window, sets a timer of
    [windowMs - (now - oldest) + 50] ms (more than 50 ms), is resumed no
    earlier than that, only then pushes its stamp, and leaves at most three
    retained timestamps in the window ending at that stamp. *)
Theorem throttle_sequential_admission
    (calls : list (Z * Operation)) (srv : list FetchResult)
    (key : string) (t0 : Z) (sl : list Z) :
  Forall (fun d => 0 ≤ d) sl →
  Forall (fun call => 0 ≤ call.1) calls →
  let c0 := {| apiKey := key; requestTimestamps := [] |} in
  let w0 := {| clock := t0; slack := sl; trace := [] |} in
  let c := (run calls srv c0 w0).1.2 in
  let w := (run calls srv c0 w0).2 in
  (length calls ≤ length (stamps (trace w)))%nat
  ∧ (∀ t, (window_count t (stamps (trace w)) ≤ 3)%nat)
  ∧ spaced (stamps (trace w))
  ∧ (let kept := prune (clock w) (requestTimestamps c) in
     ∃ t w',
       throttle c w =
         ({| apiKey := apiKey c; requestTimestamps := kept ++ [t] |}, w')
       ∧ (window_count t (kept ++ [t]) ≤ 3)%nat
       ∧ ((3 ≤ length kept)%nat →
          let waitMs := windowMs - (clock w - default 0 (head kept)) + 50 in
          50 < waitMs
          ∧ trace w' = trace w ++ [EvTimer Admission (of_Z waitMs); EvStamp t]
          ∧ clock w + waitMs ≤ t)).
Proof.
  intros Hsl Hgaps c0 w0 c w.
  destruct (run calls srv c0 w0) as [[[rs srv'] c'] w'] eqn:Hr.
  subst c w. simpl.
  eapply run_Inv in Hr as [HI Hlen]; [|done|by apply Inv_fresh].
  simpl in Hlen. split; [lia|].
  split; [intros t; apply window_bound; apply HI|].
  split; [apply HI|].
  destruct (throttle_sequential c' w' HI) as (t & w1 & Heq & _ & _ & Hw & _ & Hfull & _).
  exists t, w1. done.
Qed.

Lemma throttle_sequential_admission_witness :
  Forall (fun d => 0 ≤ d) ([] : list Z)
  ∧ Forall (fun call : Z * Operation => 0 ≤ call.1) burst
  ∧ spaced [0; 0; 0; 1050; 1050]
  ∧ ∀ t, (window_count t [0; 0; 0; 1050; 1050]%Z ≤ 3)%nat.
Proof.
  assert (H1 : Forall (fun d => 0 ≤ d) ([] : list Z)) by constructor.
  assert (H2 : Forall (fun call : Z * Operation => 0 ≤ call.1) burst)
    by (repeat constructor; simpl; lia).
  split; [exact H1|]. split; [exact H2|].
  destruct (throttle_sequential_admission burst burst_script "k" 0 [] H1 H2)
    as (_ & Hw & Hs & _).
  split; [exact Hs | exact Hw].
Defined.

(** ** Calls in flight together *)

Local Opaque timer_ms.

(** A call made alone is an interleaving: [Begin], and when it has to wait,
    the passing of time and [Resume]. *)
Lemma throttle_is_interleaving c w c' w' :
  0 ≤ hd 0 (slack w) →
  throttle c w = (c', w') →
  ∃ es s, steps (start c (clock w)) es = Some s
          ∧ client s = c' ∧ now s = clock w' ∧ sent s = [clock w']
          ∧ parked s = [].
Proof.
  intros Hsl. unfold throttle.
  destruct (throttle_check (clock w) c) as [c1 [waitMs|]] eqn:Hc;
    intros H; injection H as <- <-.
  - exists [Begin; Tick (timer_ms (of_Z waitMs) + hd 0 (slack w)); Resume 0].
    pose proof (timer_ms_pos (of_Z waitMs)).
    simpl. rewrite Hc. simpl.
    destruct (decide (0 ≤ timer_ms (of_Z waitMs) + hd 0 (slack w))); [|lia].
    simpl. destruct (decide _) as [_|]; [|lia].
    eexists. split; [done|]. simpl.
    replace (clock w + (timer_ms (of_Z waitMs) + hd 0 (slack w)))
      with (clock w + timer_ms (of_Z waitMs) + hd 0 (slack w)) by lia.
    done.
  - exists [Begin]. simpl. rewrite Hc. eexists. split; [done|]. done.
Qed.

Local Transparent timer_ms.

(** C2.  With calls in flight together the limit is exceeded: of seven calls
    entered at time 0 on a fresh client, three are stamped at 0 and the four
    others, which each computed their wait from the same three stamps, are
    all stamped at 1050: four sends in one millisecond. *)
Theorem interleaved_calls_exceed_limit :
  ∃ s, steps (start {| apiKey := "k"; requestTimestamps := [] |} 0) pile_up = Some s
       ∧ sent s = [0; 0; 0; 1050; 1050; 1050; 1050]
       ∧ requestTimestamps (client s) = [0; 0; 0; 1050; 1050; 1050; 1050]
       ∧ window_count 1050 (sent s) = 4%nat
       ∧ ¬ spaced (sent s).
Proof.
  eexists. split; [vm_compute; reflexivity|]. simpl.
  split; [done|]. split; [done|]. split; [by vm_compute|].
  intros H. specialize (H 3%nat 1050 1050 eq_refl eq_refl). unfold windowMs in H. lia.
Qed.

(** ** One request: retry and failure *)

Lemma wire_log_stamp tr t : wire (tr ++ [EvStamp t]) = wire tr.
Proof. unfold wire. rewrite omap_app. simpl. by rewrite app_nil_r. Qed.

Lemma wire_log_wait tr d : wire (tr ++ [EvTimer Admission d]) = wire tr.
Proof. unfold wire. rewrite omap_app. simpl. by rewrite app_nil_r. Qed.

Lemma wire_log_backoff tr d :
  wire (tr ++ [EvTimer Backoff d]) = wire tr ++ [EvTimer Backoff d].
Proof. unfold wire. by rewrite omap_app. Qed.

Lemma wire_log_fetch tr r : wire (tr ++ [EvFetch r]) = wire tr ++ [EvFetch r].
Proof. unfold wire. by rewrite omap_app. Qed.

(** [throttle] sends nothing and leaves the credential alone. *)
Lemma throttle_wire c w c' w' :
  throttle c w = (c', w') → wire (trace w') = wire (trace w) ∧ apiKey c' = apiKey c.
Proof.
  intros Ht. split; [|by apply throttle_stamps in Ht as [_ ?]].
  revert Ht. unfold throttle.
  destruct (throttle_check (clock w) c) as [c1 wait].
  intros H. injection H as <- <-. simpl. rewrite wire_log_stamp.
  destruct wait; simpl; by rewrite ?wire_log_wait.
Qed.

Lemma build_request_key c c' m path b :
  apiKey c' = apiKey c → build_request c' m path b = build_request c m path b.
Proof. intros H. unfold build_request, request_headers. by rewrite H. Qed.

Lemma request_retry_chain m path b (throttled : list Response) final rest :
  Forall (fun res => status res = 429) throttled →
  not_429 final →
  ∀ c w r srv' c' w',
    request m path b ((Resolved <$> throttled) ++ final :: rest) c w
      = (r, srv', c', w') →
    r = settle final ∧ srv' = rest ∧ apiKey c' = apiKey c
    ∧ wire (trace w') =
        wire (trace w) ++ retried (build_request c m path b) throttled
          ++ [EvFetch (build_request c m path b)].
Proof.
  intros H429 Hfinal. induction H429 as [|res throttled Hres _ IH];
    intros c w r srv' c' w'; rewrite request_eq;
    destruct (throttle c w) as [c1 w1] eqn:Ht;
    apply throttle_wire in Ht as [Hw Hk];
    rewrite (build_request_key c c1) by done; simpl.
  - destruct final as [res|e]; simpl in Hfinal.
    + destruct (decide (status res = 429)); [done|]. unfold settle.
      destruct (negb (ok res)); [|destruct (json_result res)];
        intros H; injection H as <- <- <- <-; simpl;
        by rewrite wire_log_fetch, Hw.
    + intros H; injection H as <- <- <- <-; simpl.
      by rewrite wire_log_fetch, Hw.
  - destruct (decide (status res = 429)); [|done].
    intros H. apply IH in H as (-> & -> & Hk' & Hwire).
    split; [done|]. split; [done|]. split; [congruence|].
    rewrite Hwire, (build_request_key c c1) by done. simpl.
    rewrite wire_log_backoff, wire_log_fetch, Hw.
    by rewrite <- !app_assoc.
Qed.

(** C3.  Answered 429 any number of times and then something else, [request]
    sends the same request (method, URL, headers, body) once per answer,
    waits after each 429 before sending again, and settles on the last
    answer alone: a 429 is never what the caller gets.  In particular, on
    [429, 200] there is exactly one retry and the decoded payload of the 200
    is returned as it is. *)
Theorem request_retries_429 m path b c w :
  let rq := build_request c m path b in
  (∀ throttled final rest,
     Forall (fun res => status res = 429) throttled →
     not_429 final →
     let '(r, srv', _, w') :=
       request m path b ((Resolved <$> throttled) ++ final :: rest) c w in
     r = settle final ∧ srv' = rest
     ∧ wire (trace w') = wire (trace w) ++ retried rq throttled ++ [EvFetch rq])
  ∧ (∀ r429 r200 payload,
       status r429 = 429 → status r200 = 200 → json_result r200 = inr payload →
       let '(r, _, _, w') :=
         request m path b [Resolved r429; Resolved r200] c w in
       r = Return payload
       ∧ wire (trace w') =
           wire (trace w) ++
             [EvFetch rq; EvTimer Backoff (mul (waitSec r429) (of_Z 1000));
              EvFetch rq]).
Proof.
  intros rq. split.
  - intros throttled final rest H429 Hfinal.
    destruct (request _ _ _ _ _ _) as [[[r srv'] c'] w'] eqn:Hr.
    eapply request_retry_chain in Hr as (? & ? & _ & ?); done.
  - intros r429 r200 payload H429 H200 Hv.
    destruct (request _ _ _ _ _ _) as [[[r srv'] c'] w'] eqn:Hr.
    apply (request_retry_chain m path b [r429] (Resolved r200) []) in Hr
      as (-> & _ & _ & ->).
    + split; [|done]. unfold settle, ok. rewrite H200, Hv. done.
    + by repeat constructor.
    + simpl. lia.
Qed.

Lemma request_retries_429_witness :
  status throttled_2s = 429
  ∧ let rq := build_request (fresh "k") "GET" "/users/u" None in
    let '(r, _, _, w') :=
      request "GET" "/users/u" None
        [Resolved throttled_2s; Resolved (answer 200 "OK" (JStr "payload"))]
        (fresh "k") epoch in
    r = Return (JStr "payload")
    ∧ wire (trace w') = [EvFetch rq; EvTimer Backoff (of_Z 2000); EvFetch rq]
    ∧ clock w' = 2000.
Proof.
  split; [reflexivity|].
  pose proof (request_retries_429 "GET" "/users/u" None (fresh "k") epoch) as [_ H].
  specialize (H throttled_2s (answer 200 "OK" (JStr "payload")) (JStr "payload")
                eq_refl eq_refl eq_refl).
  destruct (request _ _ _ _ _ _) as [[[r srv'] c'] w'] eqn:Hr.
  destruct H as [-> Hw]. split; [done|]. split; [exact Hw|].
  vm_compute in Hr. by injection Hr as _ _ <-.
Defined.

(** ** The wait after a 429 *)

Lemma wait_without_header res :
  retry_after res = None → mul (waitSec res) (of_Z 1000) = of_Z 1000.
Proof. unfold waitSec. by intros ->. Qed.

Lemma wait_with_empty_header res :
  retry_after res = Some "" → mul (waitSec res) (of_Z 1000) = of_Z 1000.
Proof. unfold waitSec. by intros ->. Qed.

Lemma wait_with_seconds res s q :
  retry_after res = Some s → s ≠ "" → Number s = Finite q →
  mul (waitSec res) (of_Z 1000) = Finite (Qred (q * 1000)).
Proof.
  unfold waitSec. intros -> Hs ->. by destruct s.
Qed.

Example wait_2_seconds : mul (waitSec throttled_2s) (of_Z 1000) = of_Z 2000.
Proof. reflexivity. Qed.

(** C4.  A Retry-After that is not a number does not give a wait of one
    second: [Number] yields NaN, the timer is set with NaN, which the host
    takes as 1 ms, and the request is sent again at once. *)
Theorem retry_after_unparseable_wait :
  waitSec throttled_until = NaN
  ∧ mul (waitSec throttled_until) (of_Z 1000) = NaN
  ∧ timer_ms (mul (waitSec throttled_until) (of_Z 1000)) = 1
  ∧ let rq := build_request (fresh "k") "GET" "/users/u" None in
    let '(r, _, _, w') :=
      request "GET" "/users/u" None
        [Resolved throttled_until; Resolved (answer 200 "OK" JNull)]
        (fresh "k") epoch in
    r = Return JNull
    ∧ wire (trace w') = [EvFetch rq; EvTimer Backoff NaN; EvFetch rq]
    ∧ clock w' = 1.
Proof. repeat split; by vm_compute. Qed.

(** ** Answers that are failures *)

(** C5.  An answer that is neither a success nor a 429 makes the call fail,
    after that single request and without any wait, with one error whose
    message carries the status code, the status text and the text of the
    body, the empty string standing for a body that could not be read. *)
Theorem request_fails_on_non_success m path b res rest c w :
  status res ≠ 429 → ok res = false →
  let '(r, srv', _, w') := request m path b (Resolved res :: rest) c w in
  r = Throw (ErrorObj ("Notion API error (" +:+ String_ (status res) +:+ " " +:+
                       statusText res +:+ "): " +:+
                       match text_result res with
                       | Some errorBody => errorBody
                       | None => ""
                       end))
  ∧ srv' = rest
  ∧ wire (trace w') = wire (trace w) ++ [EvFetch (build_request c m path b)].
Proof.
  intros H429 Hok.
  destruct (request _ _ _ _ _ _) as [[[r srv'] c'] w'] eqn:Hr.
  apply (request_retry_chain m path b [] (Resolved res) rest) in Hr
    as (-> & -> & _ & ->); [|done|done].
  split; [|done]. simpl. rewrite Hok. simpl. unfold api_error.
  by destruct (text_result res).
Qed.

Lemma request_fails_on_non_success_witness :
  status not_found ≠ 429 ∧ ok not_found = false
  ∧ let '(r, srv', _, w') :=
      request "GET" "/pages/p" None
        [Resolved not_found; Resolved (answer 200 "OK" JNull)] (fresh "k") epoch in
    r = Throw (ErrorObj "Notion API error (404 Not Found): not_found")
    ∧ srv' = [Resolved (answer 200 "OK" JNull)]
    ∧ wire (trace w') = [EvFetch (build_request (fresh "k") "GET" "/pages/p" None)].
Proof.
  assert (H1 : status not_found ≠ 429) by (simpl; lia).
  assert (H2 : ok not_found = false) by reflexivity.
  split; [exact H1|]. split; [exact H2|].
  exact (request_fails_on_non_success "GET" "/pages/p" None not_found
           [Resolved (answer 200 "OK" JNull)] (fresh "k") epoch H1 H2).
Defined.

Example unreadable_body :
  api_error {| status := 500; statusText := "Internal Server Error";
               retry_after := None; text_result := None;
               json_result := inl (ErrorObj "aborted") |}
  = ErrorObj "Notion API error (500 Internal Server Error): ".
Proof. reflexivity. Qed.

(** ** The credential *)

(** C6, as the code has it.  Without the credential (unset, or set to the
    empty string) the constructor fails with the configuration error, and
    it does so before anything is sent; but [registerTools] builds no
    client, so start-up succeeds, and the error comes back as the error
    envelope of each tool invocation, which sends nothing, waits for nothing
    and leaves the adapter without a client. *)
Theorem missing_key_fails_each_invocation (env_key : option string) :
  env_key = None ∨ env_key = Some "" →
  constructor env_key = Throw (ErrorObj MISSING_KEY)
  ∧ registerTools env_key = Return {| NOTION_API_KEY := env_key; _client := None |}
  ∧ ∀ op srv w,
      invoke op srv {| NOTION_API_KEY := env_key; _client := None |} w
      = ({| text := Plain ("Error: " +:+ MISSING_KEY); isError := Some true |},
         srv, {| NOTION_API_KEY := env_key; _client := None |}, w).
Proof. intros [-> | ->]; split; try split; done. Qed.

Lemma missing_key_fails_each_invocation_witness :
  constructor None = Throw (ErrorObj MISSING_KEY)
  ∧ registerTools None = Return unconfigured
  ∧ ∀ op srv w,
      invoke op srv unconfigured w
      = ({| text := Plain ("Error: " +:+ MISSING_KEY); isError := Some true |},
         srv, unconfigured, w).
Proof. exact (missing_key_fails_each_invocation None (or_introl eq_refl)). Defined.

(** Start-up does not fail when the credential is unset, and an invocation
    is then answered (with an error envelope). *)
Lemma missing_key_not_fatal_at_startup :
  ¬ (∃ e, registerTools None = Throw e)
  ∧ ∃ envelope,
      invoke (GetUser "u") [] unconfigured epoch = (envelope, [], unconfigured, epoch)
      ∧ isError envelope = Some true.
Proof.
  split.
  - intros [e He]. discriminate He.
  - eexists. split; reflexivity.
Qed.

(** ** Optional arguments *)

Ltac body_cases :=
  unfold search_body, queryDatabase_body, updatePage_body, createPage_body,
    page_params, set_if_truthy, set_if_defined, push_if_truthy;
  repeat case_match; simplify_map_eq; try done.

(** C7, as the code has it.  An optional argument left out puts no key in
    the body and no parameter in the query, for [search], [queryDatabase],
    [updatePage], [createPage], [getBlockChildren] and [listUsers]; and
    [search] called with a non-empty query string alone sends a body that is
    exactly the [query] field. *)
Theorem omitted_arguments_omit_fields :
  (∀ f s sc ps, search_body None f s sc ps !! "query" = None)
  ∧ (∀ q s sc ps, search_body q None s sc ps !! "filter" = None)
  ∧ (∀ q f sc ps, search_body q f None sc ps !! "sort" = None)
  ∧ (∀ q f s ps, search_body q f s None ps !! "start_cursor" = None)
  ∧ (∀ q f s sc, search_body q f s sc None !! "page_size" = None)
  ∧ (∀ s sc ps, queryDatabase_body None s sc ps !! "filter" = None)
  ∧ (∀ f sc ps, queryDatabase_body f None sc ps !! "sorts" = None)
  ∧ (∀ f s ps, queryDatabase_body f s None ps !! "start_cursor" = None)
  ∧ (∀ f s sc, queryDatabase_body f s sc None !! "page_size" = None)
  ∧ (∀ a, updatePage_body None a !! "properties" = None)
  ∧ (∀ p, updatePage_body p None !! "archived" = None)
  ∧ (∀ i t props, createPage_body i t props None !! "children" = None)
  ∧ (∀ ps, page_params None (Some ps)
           = if truthy ps then ["page_size=" +:+ String_ ps] else [])
  ∧ (∀ sc, page_params (Some sc) None
           = if truthy sc then ["start_cursor=" +:+ sc] else [])
  ∧ page_params None None = []
  ∧ (∀ i, request_args (GetBlockChildren i None None)
          = ("GET", "/blocks/" +:+ i +:+ "/children", None))
  ∧ request_args (ListUsers None None) = ("GET", "/users", None)
  ∧ (∀ q, q ≠ "" →
          search_body (Some q) None None None None = {[ "query" := JStr q ]}
          ∧ request_args (Search (Some q) None None None None)
            = ("POST", "/search", Some (JObj {[ "query" := JStr q ]}))).
Proof.
  repeat split; intros; try by body_cases.
  - unfold search_body, set_if_truthy. by destruct q.
  - simpl. unfold search_body, set_if_truthy. by destruct q.
Qed.

Lemma omitted_arguments_omit_fields_witness :
  "roadmap" ≠ ""
  ∧ search_body (Some "roadmap") None None None None = {[ "query" := JStr "roadmap" ]}.
Proof.
  assert (H : "roadmap" ≠ "") by discriminate.
  split; [exact H|].
  pose proof omitted_arguments_omit_fields as T.
  do 17 destruct T as [_ T].
  exact (proj1 (T "roadmap" H)).
Defined.

(** [search] with the empty string as its only argument sends no [query]
    field at all. *)
Lemma search_empty_query_sends_no_query :
  search_body (Some "") None None None None = ∅
  ∧ search_body (Some "") None None None None ≠ {[ "query" := JStr "" ]}
  ∧ request_args (Search (Some "") None None None None)
    = ("POST", "/search", Some (JObj ∅)).
Proof.
  split; [reflexivity|]. split; [|reflexivity].
  intros H. apply (f_equal (fun o => o !! "query")) in H. discriminate H.
Qed.

(** C10.  An optional argument that is given but falsy (the empty string,
    zero) is treated as one left out, in the bodies of [search],
    [queryDatabase] and [updatePage] and in the query parameters;
    [search("")] sends the empty body; [archived] alone is tested against
    [undefined], so it is sent whenever it is given, [false] included. *)
Theorem falsy_arguments_are_absent :
  (∀ q f s sc ps,
     search_body q f s sc ps
     = search_body (absent_if_falsy q) (absent_if_falsy f) (absent_if_falsy s)
         (absent_if_falsy sc) (absent_if_falsy ps))
  ∧ (∀ f s sc ps,
       queryDatabase_body f s sc ps
       = queryDatabase_body (absent_if_falsy f) (absent_if_falsy s)
           (absent_if_falsy sc) (absent_if_falsy ps))
  ∧ (∀ p a, updatePage_body p a = updatePage_body (absent_if_falsy p) a)
  ∧ (∀ sc ps, page_params sc ps
              = page_params (absent_if_falsy sc) (absent_if_falsy ps))
  ∧ search_body (Some "") None None None None = ∅
  ∧ search_body None None None None (Some 0) = ∅
  ∧ request_args (Search (Some "") None None None None)
    = ("POST", "/search", Some (JObj ∅))
  ∧ queryDatabase_body None None (Some "") (Some 0) = ∅
  ∧ (∀ p a, updatePage_body p (Some a) !! "archived" = Some (JBool a))
  ∧ updatePage_body None (Some false) = {[ "archived" := JBool false ]}.
Proof.
  repeat split; intros; try reflexivity.
  - destruct q as [[|? ?]|], f, s, sc as [[|? ?]|], ps as [[| |]|]; reflexivity.
  - destruct f, s, sc as [[|? ?]|], ps as [[| |]|]; reflexivity.
  - destruct p; reflexivity.
  - destruct sc as [[|? ?]|], ps as [[| |]|]; reflexivity.
  - by body_cases.
Qed.

(** ** The wire contract *)

Lemma fetches_log_stamp tr t : fetches (tr ++ [EvStamp t]) = fetches tr.
Proof. unfold fetches. rewrite omap_app. simpl. by rewrite app_nil_r. Qed.

Lemma fetches_log_timer tr site d : fetches (tr ++ [EvTimer site d]) = fetches tr.
Proof. unfold fetches. rewrite omap_app. simpl. by rewrite app_nil_r. Qed.

Lemma fetches_log_fetch tr r : fetches (tr ++ [EvFetch r]) = fetches tr ++ [r].
Proof. unfold fetches. by rewrite omap_app. Qed.

Lemma throttle_fetches c w c' w' :
  throttle c w = (c', w') → fetches (trace w') = fetches (trace w).
Proof.
  unfold throttle. destruct (throttle_check (clock w) c) as [c1 wait].
  intros H. injection H as <- <-. simpl. rewrite fetches_log_stamp.
  destruct wait; simpl; by rewrite ?fetches_log_timer.
Qed.

(** Whatever the endpoint answers, everything [request] sends is the one
    request built from its arguments, sent at least once. *)
Lemma request_fetches m path b srv : ∀ c w r srv' c' w',
  request m path b srv c w = (r, srv', c', w') →
  ∃ n, fetches (trace w')
       = fetches (trace w) ++ replicate (S n) (build_request c m path b).
Proof.
  induction srv as [|f srv IH]; intros c w r srv' c' w';
    rewrite request_eq; destruct (throttle c w) as [c1 w1] eqn:Ht;
    pose proof (throttle_fetches _ _ _ _ Ht) as Hf;
    apply throttle_wire in Ht as [_ Hk];
    rewrite (build_request_key c c1) by done.
  - intros H. injection H as <- <- <- <-. exists 0%nat. simpl.
    by rewrite fetches_log_fetch, Hf.
  - assert (Hone : ∀ r0 s0, (r0, s0, c1,
        elapse 0 (log (EvFetch (build_request c m path b)) w1)) = (r, srv', c', w') →
        ∃ n, fetches (trace w')
             = fetches (trace w) ++ replicate (S n) (build_request c m path b)).
    { intros r0 s0 H. injection H as <- <- <- <-. exists 0%nat. simpl.
      by rewrite fetches_log_fetch, Hf. }
    destruct f as [res|e]; [|apply Hone].
    destruct (decide (status res = 429)).
    + intros H. apply IH in H as [n Hn]. exists (S n).
      rewrite Hn, (build_request_key c c1) by done. simpl.
      rewrite fetches_log_timer, fetches_log_fetch, Hf.
      by rewrite <- app_assoc.
    + destruct (negb (ok res)); [apply Hone|].
      destruct (json_result res); apply Hone.
Qed.

(** C9.  Each method hands [request] the method and the path of the wire
    contract (with the query parameters, for the two listings that take
    them); every request it sends goes to the base endpoint followed by that
    path, with the bearer credential, the API version and the JSON content
    type as headers, and with a body exactly when the method is POST or
    PATCH and a body was supplied: the GET and DELETE operations send none. *)
Theorem requests_follow_wire_contract (op : Operation)
    (srv : list FetchResult) (c : NotionClient) (w : World) :
  let '(m, path, b) := request_args op in
  let rq := {| method := Wire.verb op;
               url := BASE_URL +:+ with_params (Wire.path op) (query_of op);
               headers := {[ "Authorization" := "Bearer " +:+ apiKey c;
                             "Content-Type" := "application/json";
                             "Notion-Version" := NOTION_VERSION ]};
               body := if is_mutating (Wire.verb op) then b else None |} in
  perform op = request m path b
  ∧ m = Wire.verb op
  ∧ path = with_params (Wire.path op) (query_of op)
  ∧ (∃ n, fetches (trace (perform op srv c w).2)
          = fetches (trace w) ++ replicate (S n) rq)
  ∧ is_mutating (Wire.verb op)
    = bool_decide (Wire.verb op = "POST" ∨ Wire.verb op = "PATCH")
  ∧ (if is_mutating (Wire.verb op) then is_Some b else b = None)
  ∧ body (build_request c "GET" path (Some JNull)) = None
  ∧ body (build_request c "DELETE" path (Some JNull)) = None.
Proof.
  pose proof (perform_request op) as Hp.
  destruct (request_args op) as [[m path] b] eqn:Ha.
  assert (m = Wire.verb op ∧ path = with_params (Wire.path op) (query_of op)
          ∧ if is_mutating (Wire.verb op) then is_Some b else b = None)
    as (Hm & Hpath & Hb).
  { destruct op; injection Ha as <- <- <-; simpl; eauto. }
  intros rq.
  assert (Hrq : build_request c m path b = rq).
  { subst rq. unfold build_request. rewrite <- Hm, <- Hpath.
    assert (request_headers c
            = {[ "Authorization" := "Bearer " +:+ apiKey c;
                 "Content-Type" := "application/json";
                 "Notion-Version" := NOTION_VERSION ]}) as -> by reflexivity.
    f_equal. by destruct b, (is_mutating m). }
  split; [done|]. split; [done|]. split; [done|]. split.
  - rewrite Hp. destruct (request m path b srv c w) as [[[r srv'] c'] w'] eqn:Hr.
    apply request_fetches in Hr as [n Hn]. exists n. simpl. by rewrite Hn, Hrq.
  - split; [|done].
    destruct op; reflexivity.
Qed.

(** ** The tool handlers *)

(** A handler always answers with an envelope: the error envelope of what
    was thrown, or the success envelope of a serialised value. *)
Lemma invoke_envelope op srv a w :
  let envelope := (invoke op srv a w).1.1.1 in
  (∃ e, envelope = errorResult e) ∨ (∃ v, envelope = success v).
Proof.
  unfold invoke. destruct (getClient a) as [c|e]; [|simpl; eauto].
  destruct (perform op srv c w) as [[[[result|e] srv'] c'] w']; [|simpl; eauto].
  destruct (shape op result); simpl; eauto.
Qed.

(** A failure of the client becomes the error envelope carrying its
    message. *)
Lemma invoke_client_failure op srv a w c message srv' c' w' :
  getClient a = Return c →
  perform op srv c w = (Throw (ErrorObj message), srv', c', w') →
  invoke op srv a w
  = ({| text := Plain ("Error: " +:+ message); isError := Some true |},
     srv', {| NOTION_API_KEY := NOTION_API_KEY a; _client := Some c' |}, w').
Proof. unfold invoke. by intros -> ->. Qed.

(** The tools that change something report [success: true]. *)
Lemma mutation_has_success_flag op result o :
  match op with
  | CreateDatabase _ _ _ | CreatePage _ _ _ _ | UpdatePage _ _ _
  | AppendBlockChildren _ _ | DeleteBlock _ => True
  | _ => False
  end →
  shape op result = Return (JObj o) → o !! "success" = Some (JBool true).
Proof.
  destruct op; try done; intros _; unfold shape, mutation.
  - intros H. injection H as <-. cbn [literal]. by simplify_map_eq.
  - intros H. injection H as <-. cbn [literal]. by simplify_map_eq.
  - intros H. injection H as <-. cbn [literal]. by simplify_map_eq.
  - destruct (get_prop (Some result) "results") as [blocks|]; [|done].
    intros H. injection H as <-. cbn [literal]. by simplify_map_eq.
  - destruct (get_prop (Some result) "archived") as [archived|]; [|done].
    intros H. injection H as <-. cbn [literal]. by simplify_map_eq.
Qed.

Lemma get_prop_object (o : object) k : get_prop (Some (JObj o)) k = Return (o !! k).
Proof. reflexivity. Qed.

(** [search], [queryDatabase] and [getBlockChildren] pass the cursor of the
    next page on. *)
Lemma listing_has_next_cursor items payload o :
  items ≠ "nextCursor" →
  listing items (JObj payload) = Return (JObj o) →
  o !! "nextCursor" = payload !! "next_cursor".
Proof.
  intros Hitems. unfold listing. rewrite !get_prop_object.
  change (Return ?x ≫= ?f) with (f x). cbv beta.
  destruct (get_prop (payload !! "results") "length") as [total|]; [|done].
  intros H. injection H as <-.
  destruct total, (payload !! "has_more"), (payload !! "next_cursor"),
    (payload !! "results"); cbn [literal]; by simplify_map_eq.
Qed.

(** C8.  The envelope of [notion_list_users] has no next cursor: on a page
    that says there is more and gives the cursor, it reports the count, the
    has-more flag and the users, and nothing else; the handler of
    [notion_search], given the same page, passes the cursor on. *)
Theorem list_users_envelope_lacks_cursor :
  let script := [Resolved (answer 200 "OK" users_page)] in
  (∃ o, (invoke (ListUsers None None) script configured epoch).1.1.1
        = success (JObj o)
        ∧ o !! "total" = Some (JNum 1)
        ∧ o !! "hasMore" = Some (JBool true)
        ∧ o !! "nextCursor" = None
        ∧ dom o = {[ "total"; "hasMore"; "users" ]})
  ∧ (∃ o, (invoke (Search None None None None None) script configured epoch).1.1.1
          = success (JObj o)
          ∧ o !! "hasMore" = Some (JBool true)
          ∧ o !! "nextCursor" = Some (JStr "cur2")).
Proof.
  split; eexists; (split; [vm_compute; reflexivity|]); repeat split;
    by vm_compute.
Qed.


(** * Further properties *)

(** ** The retained timestamps and the wait *)

Lemma request_retained m path b srv : ∀ c w r srv' c' w',
  Inv c w → request m path b srv c w = (r, srv', c', w') →
  (length (requestTimestamps c') ≤ 4)%nat.
Proof.
  induction srv as [|f srv IH]; intros c w r srv' c' w' HI;
    rewrite request_eq;
    destruct (throttle_sequential c w HI)
      as (t & w1 & -> & _ & HI1 & _ & Hlen & _);
    set (c1 := {| apiKey := apiKey c;
                  requestTimestamps := prune (clock w) (requestTimestamps c) ++ [t] |}) in *;
    assert (Hc1 : (length (requestTimestamps c1) ≤ 4)%nat)
      by (simpl; rewrite length_app; simpl; lia).
  - intros H. by injection H as _ _ <- _.
  - destruct f as [res|e]; [|intros H; by injection H as _ _ <- _].
    destruct (decide (status res = 429)).
    + apply IH. apply Inv_sleep, Inv_elapse; [by apply Inv_log_fetch|lia].
    + destruct (negb (ok res)); [|destruct (json_result res)];
        intros H; by injection H as _ _ <- _.
Qed.

Lemma run_retained calls : ∀ srv c w rs srv' c' w',
  Forall (fun call => 0 ≤ call.1) calls →
  Inv c w → (length (requestTimestamps c) ≤ 4)%nat →
  run calls srv c w = (rs, srv', c', w') →
  (length (requestTimestamps c') ≤ 4)%nat.
Proof.
  induction calls as [|[gap op] calls IH]; intros srv c w rs srv' c' w' Hgaps HI Hc; simpl.
  - intros H. by injection H as _ _ <- _.
  - apply Forall_cons in Hgaps as [Hgap Hgaps]. simpl in Hgap.
    destruct (perform op srv c (idle gap w)) as [[[r1 srv1] c1] w1] eqn:Hp.
    destruct (run calls srv1 c1 w1) as [[[rs2 srv2] c2] w2] eqn:Hr.
    intros H. injection H as _ _ <- _.
    pose proof Hp as Hp'. eapply perform_Inv in Hp' as [HI1 _]; [|by apply Inv_idle].
    eapply IH in Hr; [done|done|done|].
    rewrite perform_request in Hp. destruct (request_args op) as [[m path] b].
    eapply request_retained in Hp; [done|by apply Inv_idle].
Qed.

(** X1.  In sequential use the client never retains more than four
    timestamps, however many calls are made. *)
Theorem retained_timestamps_bounded
    (calls : list (Z * Operation)) (srv : list FetchResult)
    (key : string) (t0 : Z) (sl : list Z) :
  Forall (fun d => 0 ≤ d) sl →
  Forall (fun call => 0 ≤ call.1) calls →
  (length (requestTimestamps
     (run calls srv (fresh key) {| clock := t0; slack := sl; trace := [] |}).1.2)
   ≤ 4)%nat.
Proof.
  intros Hsl Hgaps.
  destruct (run _ _ _ _) as [[[rs srv'] c'] w'] eqn:Hr. simpl.
  eapply run_retained in Hr; [done|done|by apply Inv_fresh|simpl; lia].
Qed.

Lemma retained_timestamps_bounded_witness :
  Forall (fun d => 0 ≤ d) ([] : list Z)
  ∧ Forall (fun call : Z * Operation => 0 ≤ call.1) burst
  ∧ requestTimestamps (run burst burst_script (fresh "k") epoch).1.2 = [1050; 1050]
  ∧ (length [1050; 1050] ≤ 4)%nat.
Proof.
  assert (H1 : Forall (fun d => 0 ≤ d) ([] : list Z)) by constructor.
  assert (H2 : Forall (fun call : Z * Operation => 0 ≤ call.1) burst)
    by (repeat constructor; simpl; lia).
  split; [exact H1|]. split; [exact H2|]. split; [reflexivity|].
  exact (retained_timestamps_bounded burst burst_script "k" 0 [] H1 H2).
Defined.

Lemma wait_bounds c w :
  Inv c w →
  match (throttle_check (clock w) c).2 with
  | Some waitMs => 50 < waitMs ≤ 1050
  | None => (length (prune (clock w) (requestTimestamps c)) < 3)%nat
  end.
Proof.
  intros HI. pose proof HI as [_ Hp _ (old & Heq & _) _].
  unfold throttle_check.
  pose proof (prune_kept (clock w) (requestTimestamps c)) as Hk.
  assert (Hpast : Forall (fun s => s ≤ clock w) (prune (clock w) (requestTimestamps c))).
  { apply Forall_forall. intros x Hx. unfold prune in Hx.
    apply list_elem_of_filter in Hx as [_ Hx].
    eapply Forall_forall in Hp; [exact Hp|]. rewrite Heq. apply elem_of_app. by right. }
  destruct (decide (maxRequests ≤ length _)%nat) as [Hfull|Hroom];
    [|simpl; unfold maxRequests in Hroom; lia].
  destruct (prune (clock w) (requestTimestamps c)) as [|a k];
    [unfold maxRequests in Hfull; simpl in Hfull; lia|].
  apply Forall_cons in Hk as [Ha _]. apply Forall_cons in Hpast as [Ha' _].
  simpl head. simpl default. unfold windowMs in *.
  destruct (decide _); simpl; lia.
Qed.

(** X2.  In sequential use a call that has to wait for admission waits more
    than 50 ms and at most 1050 ms, and it waits only when three requests
    were stamped in the last second. *)
Theorem admission_wait_bounded
    (calls : list (Z * Operation)) (srv : list FetchResult)
    (key : string) (t0 : Z) (sl : list Z) :
  Forall (fun d => 0 ≤ d) sl →
  Forall (fun call => 0 ≤ call.1) calls →
  let out := run calls srv (fresh key) {| clock := t0; slack := sl; trace := [] |} in
  match (throttle_check (clock out.2) out.1.2).2 with
  | Some waitMs =>
      50 < waitMs ≤ 1050
      ∧ (3 ≤ length (prune (clock out.2) (requestTimestamps out.1.2)))%nat
  | None => (length (prune (clock out.2) (requestTimestamps out.1.2)) < 3)%nat
  end.
Proof.
  intros Hsl Hgaps out. subst out.
  destruct (run _ _ _ _) as [[[rs srv'] c'] w'] eqn:Hr. simpl.
  eapply run_Inv in Hr as [HI _]; [|done|by apply Inv_fresh].
  pose proof (wait_bounds c' w' HI) as Hb.
  destruct (throttle_check (clock w') c').2 as [waitMs|] eqn:Hc; [|done].
  split; [done|]. unfold throttle_check in Hc.
  destruct (decide (maxRequests ≤ length _)%nat) as [Hfull|]; [done|].
  simpl in Hc. discriminate.
Qed.

Lemma admission_wait_bounded_witness :
  Forall (fun d => 0 ≤ d) ([] : list Z)
  ∧ Forall (fun call : Z * Operation => 0 ≤ call.1) (replicate 3 (0, GetUser "u"))
  ∧ (throttle_check 0 {| apiKey := "k"; requestTimestamps := [0; 0; 0] |}).2 = Some 1050
  ∧ 50 < 1050 ≤ 1050.
Proof.
  assert (H1 : Forall (fun d => 0 ≤ d) ([] : list Z)) by constructor.
  assert (H2 : Forall (fun call : Z * Operation => 0 ≤ call.1)
                 (replicate 3 (0, GetUser "u")))
    by (repeat constructor; simpl; lia).
  split; [exact H1|]. split; [exact H2|]. split; [reflexivity|].
  exact (proj1 (admission_wait_bounded (replicate 3 (0, GetUser "u"))
                  burst_script "k" 0 [] H1 H2)).
Defined.

(** ** Attempts, and failures that are not answers *)


(** X4.  A failure of the transport and a successful answer whose body does
    not decode are passed to the caller as they are, after that single
    request: neither is retried, and no wait follows. *)
Theorem transport_and_decode_failures_propagate m path b rest c w :
  (∀ e,
     let '(r, srv', _, w') := request m path b (Rejected e :: rest) c w in
     r = Throw e ∧ srv' = rest
     ∧ wire (trace w') = wire (trace w) ++ [EvFetch (build_request c m path b)])
  ∧ (∀ res e,
       ok res = true → json_result res = inl e →
       let '(r, srv', _, w') := request m path b (Resolved res :: rest) c w in
       r = Throw e ∧ srv' = rest
       ∧ wire (trace w') = wire (trace w) ++ [EvFetch (build_request c m path b)]).
Proof.
  split.
  - intros e. destruct (request _ _ _ _ _ _) as [[[r srv'] c'] w'] eqn:Hr.
    apply (request_retry_chain m path b [] (Rejected e) rest) in Hr
      as (-> & -> & _ & ->); done.
  - intros res e Hok He.
    destruct (request _ _ _ _ _ _) as [[[r srv'] c'] w'] eqn:Hr.
    apply (request_retry_chain m path b [] (Resolved res) rest) in Hr
      as (-> & -> & _ & ->); [|done|].
    + split; [|done]. simpl. by rewrite Hok, He.
    + simpl. unfold ok in Hok. lia.
Qed.

Lemma transport_and_decode_failures_propagate_witness :
  ok truncated = true
  ∧ json_result truncated = inl (ErrorObj "Unexpected end of JSON input")
  ∧ let '(r, srv', _, w') :=
      request "GET" "/users/u" None [Resolved truncated] (fresh "k") epoch in
    r = Throw (ErrorObj "Unexpected end of JSON input") ∧ srv' = []
    ∧ wire (trace w') = [EvFetch (build_request (fresh "k") "GET" "/users/u" None)].
Proof.
  split; [reflexivity|]. split; [reflexivity|].
  exact (proj2 (transport_and_decode_failures_propagate
                  "GET" "/users/u" None [] (fresh "k") epoch)
           truncated (ErrorObj "Unexpected end of JSON input") eq_refl eq_refl).
Defined.

(** ** One client behind all the tools *)

Lemma request_apiKey m path b srv : ∀ c w r srv' c' w',
  request m path b srv c w = (r, srv', c', w') → apiKey c' = apiKey c.
Proof.
  induction srv as [|f srv IH]; intros c w r srv' c' w';
    rewrite request_eq; destruct (throttle c w) as [c1 w1] eqn:Ht;
    apply throttle_wire in Ht as [_ Hk].
  - intros H. by injection H as _ _ <- _.
  - destruct f as [res|e]; [|intros H; by injection H as _ _ <- _].
    destruct (decide (status res = 429)).
    + intros H. apply IH in H. congruence.
    + destruct (negb (ok res)); [|destruct (json_result res)];
        intros H; by injection H as _ _ <- _.
Qed.

Lemma invoke_with_client op srv a w c r srv' c' w' :
  getClient a = Return c →
  perform op srv c w = (r, srv', c', w') →
  invoke op srv a w
  = (match r with
     | Throw e => errorResult e
     | Return result => match shape op result with
                        | Throw e => errorResult e
                        | Return v => success v
                        end
     end, srv', {| NOTION_API_KEY := NOTION_API_KEY a; _client := Some c' |}, w').
Proof.
  unfold invoke. intros -> ->. destruct r as [result|e]; [|done].
  by destruct (shape op result).
Qed.

Lemma constructor_with_key key :
  key ≠ "" → constructor (Some key) = Return (fresh key).
Proof. by destruct key. Qed.

Lemma serve_Inv calls : ∀ srv a w c es srv' a' w',
  Forall (fun call => 0 ≤ call.1) calls →
  getClient a = Return c → Inv c w →
  serve calls srv a w = (es, srv', a', w') →
  ∃ c', getClient a' = Return c' ∧ Inv c' w'.
Proof.
  induction calls as [|[gap op] calls IH]; intros srv a w c es srv' a' w' Hgaps Hc HI; simpl.
  - intros H. injection H as _ _ <- <-. eauto.
  - apply Forall_cons in Hgaps as [Hgap Hgaps]. simpl in Hgap.
    destruct (perform op srv c (idle gap w)) as [[[r1 srv1] c1] w1] eqn:Hp.
    rewrite (invoke_with_client _ _ _ _ _ _ _ _ _ Hc Hp).
    destruct (serve calls srv1 _ w1) as [[[es2 srv2] a2] w2] eqn:Hs.
    intros H. injection H as _ _ <- <-.
    eapply perform_Inv in Hp as [HI1 _]; [|by apply Inv_idle].
    eapply IH in Hs; [done|done|done|done].
Qed.

(** X9.  The tools share one client, hence one limiter: over tool
    invocations served one after the other, whatever the tools, no window
    of 1000 ms holds four stamps, and the fourth stamp after any one is at
    least 1000 ms later. *)
Theorem tools_share_the_limiter
    (calls : list (Z * Operation)) (srv : list FetchResult)
    (key : string) (t0 : Z) (sl : list Z) :
  key ≠ "" →
  Forall (fun d => 0 ≤ d) sl →
  Forall (fun call => 0 ≤ call.1) calls →
  let w' := (serve calls srv {| NOTION_API_KEY := Some key; _client := None |}
               {| clock := t0; slack := sl; trace := [] |}).2 in
  (∀ t, (window_count t (stamps (trace w')) ≤ 3)%nat)
  ∧ spaced (stamps (trace w')).
Proof.
  intros Hkey Hsl Hgaps w'. subst w'.
  destruct (serve _ _ _ _) as [[[es srv'] a'] w'] eqn:Hs. simpl.
  eapply serve_Inv in Hs as (c' & _ & HI);
    [|done|simpl; by apply constructor_with_key|by apply Inv_fresh].
  split; [intros t; apply window_bound; apply HI|apply HI].
Qed.

Lemma tools_share_the_limiter_witness :
  "secret" ≠ ""
  ∧ Forall (fun d => 0 ≤ d) ([] : list Z)
  ∧ Forall (fun call : Z * Operation => 0 ≤ call.1) mixed_burst
  ∧ stamps (trace (serve mixed_burst burst_script configured epoch).2)
    = [0; 0; 0; 1050; 1050]
  ∧ spaced [0; 0; 0; 1050; 1050].
Proof.
  assert (H0 : "secret" ≠ "") by discriminate.
  assert (H1 : Forall (fun d => 0 ≤ d) ([] : list Z)) by constructor.
  assert (H2 : Forall (fun call : Z * Operation => 0 ≤ call.1) mixed_burst)
    by (repeat constructor; simpl; lia).
  split; [exact H0|]. split; [exact H1|]. split; [exact H2|].
  split; [reflexivity|].
  exact (proj2 (tools_share_the_limiter mixed_burst burst_script "secret" 0 []
                  H0 H1 H2)).
Defined.

Lemma serve_credential key calls : ∀ srv a w c,
  getClient a = Return c → apiKey c = key →
  Forall (fun rq => headers rq !! "Authorization" = Some ("Bearer " +:+ key))
    (fetches (trace w)) →
  Forall (fun rq => headers rq !! "Authorization" = Some ("Bearer " +:+ key))
    (fetches (trace (serve calls srv a w).2)).
Proof.
  induction calls as [|[gap op] calls IH]; intros srv a w c Hc Hk Hw; simpl; [done|].
  destruct (perform op srv c (idle gap w)) as [[[r1 srv1] c1] w1] eqn:Hp.
  rewrite (invoke_with_client _ _ _ _ _ _ _ _ _ Hc Hp).
  destruct (serve calls srv1 _ w1) as [[[es2 srv2] a2] w2] eqn:Hs.
  simpl. replace w2 with (serve calls srv1
    {| NOTION_API_KEY := NOTION_API_KEY a; _client := Some c1 |} w1).2
    by (by rewrite Hs).
  rewrite perform_request in Hp. destruct (request_args op) as [[m path] b].
  pose proof (request_apiKey _ _ _ _ _ _ _ _ _ _ Hp) as Hk1.
  apply request_fetches in Hp as [n Hn].
  apply (IH srv1 _ w1 c1); [done|congruence|].
  rewrite Hn. apply Forall_app. split; [done|].
  apply Forall_replicate. simpl. unfold request_headers. rewrite Hk.
  by simplify_map_eq.
Qed.

Lemma serve_without_key calls : ∀ srv a w,
  getClient a = Throw (ErrorObj MISSING_KEY) →
  trace (serve calls srv a w).2 = trace w.
Proof.
  induction calls as [|[gap op] calls IH]; intros srv a w Ha; simpl; [done|].
  unfold invoke. rewrite Ha.
  destruct (serve calls srv a (idle gap w)) as [[[es2 srv2] a2] w2] eqn:Hs.
  simpl. replace w2 with (serve calls srv a (idle gap w)).2 by (by rewrite Hs).
  by rewrite IH.
Qed.

(** X10.  Nothing leaves the process without the credential: every request
    the tools send has the header [Authorization: Bearer <key>] with the key
    of the environment, and when the key is unset or empty, no invocation
    sends, stamps or waits for anything. *)
Theorem requests_carry_the_credential (env_key : option string)
    (calls : list (Z * Operation)) (srv : list FetchResult) (t0 : Z) (sl : list Z) :
  let w' := (serve calls srv {| NOTION_API_KEY := env_key; _client := None |}
               {| clock := t0; slack := sl; trace := [] |}).2 in
  if truthy env_key
  then Forall (fun rq => headers rq !! "Authorization"
                         = Some ("Bearer " +:+ default "" env_key))
         (fetches (trace w'))
  else trace w' = [].
Proof.
  intros w'. subst w'. destruct (truthy env_key) eqn:Hk.
  - destruct env_key as [key|]; [|done]. simpl default.
    eapply serve_credential; [| |by constructor].
    + cbn [getClient _client NOTION_API_KEY]. unfold constructor. by rewrite Hk.
    + done.
  - rewrite serve_without_key; [done|].
    cbn [getClient _client NOTION_API_KEY]. unfold constructor. by rewrite Hk.
Qed.

(** ** What the handlers make of an answer *)

Lemma invoke_on_answer op res payload rest a w c :
  getClient a = Return c →
  ok res = true → json_result res = inr payload →
  (invoke op (Resolved res :: rest) a w).1.1
  = (match shape op payload with
     | Throw e => errorResult e
     | Return v => success v
     end, rest).
Proof.
  intros Hc Hok Hv.
  destruct (perform op (Resolved res :: rest) c w) as [[[r srv'] c'] w'] eqn:Hp.
  rewrite (invoke_with_client _ _ _ _ _ _ _ _ _ Hc Hp). simpl.
  rewrite perform_request in Hp. destruct (request_args op) as [[m path] b].
  apply (request_retry_chain m path b [] (Resolved res) rest) in Hp
    as (-> & -> & _ & _); [|done|simpl; unfold ok in Hok; lia].
  simpl. by rewrite Hok, Hv.
Qed.

(** X11.  The four tools that get one resource return the decoded answer of
    the API as it is. *)
Theorem getters_pass_the_answer_through op res payload rest a w c :
  is_getter op = true →
  getClient a = Return c →
  ok res = true → json_result res = inr payload →
  (invoke op (Resolved res :: rest) a w).1.1
  = ({| text := Serialized payload; isError := None |}, rest).
Proof.
  intros Hg Hc Hok Hv. rewrite (invoke_on_answer _ _ payload _ _ _ c) by done.
  by destruct op.
Qed.

Lemma getters_pass_the_answer_through_witness :
  (invoke (GetPage "p") [Resolved (answer 200 "OK" users_page)] configured epoch).1.1
  = ({| text := Serialized users_page; isError := None |}, []).
Proof.
  exact (getters_pass_the_answer_through (GetPage "p") (answer 200 "OK" users_page)
           users_page [] configured epoch (fresh "secret")
           eq_refl eq_refl eq_refl eq_refl).
Defined.

(** X12.  In the envelope of a listing tool, [total] is the number of items
    of the page the API returned (not of the whole listing), the items are
    passed on under the tool's key and [hasMore] is the API's [has_more]. *)
Theorem listing_total_counts_the_page op key res o (items : list Json) rest a w c :
  items_key op = Some key →
  getClient a = Return c →
  ok res = true → json_result res = inr (JObj o) →
  o !! "results" = Some (JArr items) →
  ∃ e, (invoke op (Resolved res :: rest) a w).1.1
       = ({| text := Serialized (JObj e); isError := None |}, rest)
       ∧ e !! "total" = Some (JNum (Z.of_nat (length items)))
       ∧ e !! key = Some (JArr items)
       ∧ e !! "hasMore" = o !! "has_more".
Proof.
  intros Hk Hc Hok Hv Hitems.
  rewrite (invoke_on_answer _ _ (JObj o) _ _ _ c) by done.
  destruct op; try discriminate Hk; injection Hk as <-;
    unfold shape, listing; rewrite !get_prop_object, Hitems;
    cbn [mbind Completion_bind get_prop]; eexists; (split; [reflexivity|]);
    destruct (o !! "has_more"), (o !! "next_cursor"); cbn [literal];
    by simplify_map_eq.
Qed.

Lemma listing_total_counts_the_page_witness :
  ∃ e, (invoke (ListUsers None None) [Resolved (answer 200 "OK" users_page)]
          configured epoch).1.1
       = ({| text := Serialized (JObj e); isError := None |}, [])
       ∧ e !! "total" = Some (JNum 1)
       ∧ e !! "users" = Some (JArr [JObj {[ "id" := JStr "u1" ]}])
       ∧ e !! "hasMore" = Some (JBool true).
Proof.
  exact (listing_total_counts_the_page (ListUsers None None) "users"
           (answer 200 "OK" users_page)
           {[ "object" := JStr "list";
              "results" := JArr [JObj {[ "id" := JStr "u1" ]}];
              "has_more" := JBool true;
              "next_cursor" := JStr "cur2" ]}
           [JObj {[ "id" := JStr "u1" ]}] [] configured epoch (fresh "secret")
           eq_refl eq_refl eq_refl eq_refl eq_refl).
Defined.

(** X13.  A listing tool answers with the error envelope, not with a
    success, when the API's answer decodes to [null] or to an object without
    [results]: building the envelope reads [results.length]. *)
Theorem listing_needs_results op key res payload rest a w c :
  items_key op = Some key →
  getClient a = Return c →
  ok res = true → json_result res = inr payload →
  payload = JNull ∨ (∃ o, payload = JObj o ∧ o !! "results" = None) →
  ∃ message,
    (invoke op (Resolved res :: rest) a w).1.1
    = ({| text := Plain ("Error: " +:+ message); isError := Some true |}, rest).
Proof.
  intros Hk Hc Hok Hv Hbad.
  rewrite (invoke_on_answer _ _ payload _ _ _ c) by done.
  destruct Hbad as [->|(o & -> & Ho)].
  - destruct op; try discriminate Hk; eexists; reflexivity.
  - destruct op; try discriminate Hk;
      unfold shape, listing; rewrite !get_prop_object, Ho;
      eexists; reflexivity.
Qed.

Lemma listing_needs_results_witness :
  ∃ message,
    (invoke (Search None None None None None) [Resolved (answer 200 "OK" JNull)]
       configured epoch).1.1
    = ({| text := Plain ("Error: " +:+ message); isError := Some true |}, []).
Proof.
  exact (listing_needs_results (Search None None None None None) "results"
           (answer 200 "OK" JNull) JNull [] configured epoch (fresh "secret")
           eq_refl eq_refl eq_refl eq_refl (or_introl eq_refl)).
Defined.

(** ** Bodies and paths *)

(** X7.  [createPage] names the kind of parent twice, as the value of
    [type] and as the key of the identifier; the parent object has those
    two keys, except when the kind given is the word type itself: the
    identifier then takes the place of the kind. *)
Theorem createPage_parent_object
    (parentId parentType : string) (properties : object)
    (children : option (list object)) :
  ∃ p, createPage_body parentId parentType properties children !! "parent"
       = Some (JObj p)
       ∧ p !! parentType = Some (JStr parentId)
       ∧ p !! "type" = Some (JStr (if decide (parentType = "type")
                                    then parentId else parentType))
       ∧ dom p = {[ "type"; parentType ]}.
Proof.
  eexists. split.
  - unfold createPage_body, set_if_truthy.
    destruct children; simpl; by simplify_map_eq.
  - split; [apply lookup_insert_eq|]. split.
    + destruct (decide (parentType = "type")) as [->|].
      * apply lookup_insert_eq.
      * rewrite lookup_insert_ne by done. apply lookup_insert_eq.
    + rewrite !dom_insert_L, dom_empty_L, union_empty_r_L. apply union_comm_L.
Qed.



(** ** Calls in flight together: what still holds *)

Lemma step_keeps_calls lo s e s' :
  step s e = Some s' →
  StronglySorted Z.le (sent s) →
  Forall (fun x => lo ≤ x ≤ now s) (sent s) → lo ≤ now s →
  (length (sent s') + length (parked s')
   = length (sent s) + length (parked s) + begun [e])%nat
  ∧ StronglySorted Z.le (sent s')
  ∧ Forall (fun x => lo ≤ x ≤ now s') (sent s') ∧ lo ≤ now s'.
Proof.
  intros Hstep Hs Hb Hlo.
  assert (Hpush : StronglySorted Z.le (sent s ++ [now s])
                  ∧ Forall (fun x => lo ≤ x ≤ now s) (sent s ++ [now s])).
  { split.
    - apply StronglySorted_app_2; [|done|repeat constructor].
      intros x y Hx Hy. apply list_elem_of_singleton in Hy as ->.
      eapply Forall_forall in Hb; [|exact Hx]. simpl in Hb. lia.
    - apply Forall_app. split; [done|]. repeat constructor; lia. }
  destruct e as [ms| |i]; simpl in Hstep.
  - destruct (decide (0 ≤ ms)); [|done]. injection Hstep as <-. simpl.
    split; [lia|]. split; [done|]. split; [|lia].
    eapply Forall_impl; [exact Hb|]. simpl. lia.
  - destruct (throttle_check (now s) (client s)) as [c1 [waitMs|]];
      injection Hstep as <-; simpl; rewrite ?length_app; simpl.
    + split; [lia|]. done.
    + split; [lia|]. destruct Hpush. done.
  - destruct (parked s !! i) as [due|] eqn:Hi; [|done].
    destruct (decide (due ≤ now s)); [|done]. injection Hstep as <-. simpl.
    rewrite length_app, length_delete by eauto. simpl.
    apply lookup_lt_Some in Hi. split; [lia|]. destruct Hpush. done.
Qed.

Lemma steps_keep_calls lo es : ∀ s s',
  steps s es = Some s' →
  StronglySorted Z.le (sent s) →
  Forall (fun x => lo ≤ x ≤ now s) (sent s) → lo ≤ now s →
  (length (sent s') + length (parked s')
   = length (sent s) + length (parked s) + begun es)%nat
  ∧ StronglySorted Z.le (sent s')
  ∧ Forall (fun x => lo ≤ x ≤ now s') (sent s').
Proof.
  induction es as [|e es IH]; intros s s' Hsteps Hs Hb Hlo; simpl in Hsteps.
  - injection Hsteps as <-. simpl. split; [lia|done].
  - destruct (step s e) as [s1|] eqn:He; [|done].
    apply (step_keeps_calls lo) in He as (Hn & Hs1 & Hb1 & Hlo1); [|done..].
    apply IH in Hsteps as (Hn' & ? & ?); [|done..].
    split; [|done]. rewrite Hn', Hn. simpl. destruct e; simpl; lia.
Qed.



(** ** A Retry-After in seconds *)

Lemma decimal_plain c :
  is_decimal c = true →
  is_space c = false
  ∧ (Ascii.eqb c "e" || Ascii.eqb c "E") = false
  ∧ Ascii.eqb "." c = false.
Proof.
  destruct c as [[] [] [] [] [] [] [] []]; vm_compute; intros H;
    (discriminate H || done).
Qed.

Lemma digits_of_uint_acc d : ∀ acc,
  digits_value 10 (Z.pos acc)
    (list_ascii_of_string (NilEmpty.string_of_uint d))
  = Some (Z.pos (Pos.of_uint_acc d acc)).
Proof.
  induction d as [|d IH|d IH|d IH|d IH|d IH|d IH|d IH|d IH|d IH|d IH];
    intros acc; [done|..];
    cbn [NilEmpty.string_of_uint list_ascii_of_string digits_value Pos.of_uint_acc];
    change (digit_of 10 "0") with (Some 0); change (digit_of 10 "1") with (Some 1);
    change (digit_of 10 "2") with (Some 2); change (digit_of 10 "3") with (Some 3);
    change (digit_of 10 "4") with (Some 4); change (digit_of 10 "5") with (Some 5);
    change (digit_of 10 "6") with (Some 6); change (digit_of 10 "7") with (Some 7);
    change (digit_of 10 "8") with (Some 8); change (digit_of 10 "9") with (Some 9);
    rewrite <- IH; f_equal; lia.
Qed.

Lemma digits_of_uint d :
  digits_value 10 0 (list_ascii_of_string (NilEmpty.string_of_uint d))
  = Some (Z.of_N (Pos.of_uint d)).
Proof.
  induction d as [|d IH|d IH|d IH|d IH|d IH|d IH|d IH|d IH|d IH|d IH];
    [done|exact IH|..];
    cbn [NilEmpty.string_of_uint list_ascii_of_string digits_value Pos.of_uint];
    apply digits_of_uint_acc.
Qed.

Lemma uint_chars_decimal d :
  Forall (fun c => is_decimal c = true)
    (list_ascii_of_string (NilEmpty.string_of_uint d)).
Proof. induction d; simpl; constructor; done. Qed.

Lemma Qred_inject_Z v : Qred (inject_Z v) = inject_Z v.
Proof.
  unfold Qred, inject_Z.
  pose proof (Z.ggcd_gcd v 1) as Hg.
  pose proof (Z.ggcd_correct_divisors v 1) as Hd.
  destruct (Z.ggcd v 1) as [g [aa bb]]. simpl in Hg, Hd.
  rewrite Z.gcd_1_r in Hg. subst g. destruct Hd as [Ha Hb].
  replace aa with v by lia. replace bb with 1 by lia. reflexivity.
Qed.

Lemma split_on_none p (l : list ascii) :
  Forall (fun c => p c = false) l → split_on p l = (l, None).
Proof.
  induction 1 as [|c k Hc _ IH]; [done|]. simpl. by rewrite Hc, IH.
Qed.

(** [Number] on a string of decimal digits is the number they write. *)
Lemma Number_decimal s v :
  let l := list_ascii_of_string s in
  l ≠ [] → Forall (fun c => is_decimal c = true) l →
  digits_value 10 0 l = Some v →
  Number s = Finite (inject_Z v).
Proof.
  intros l Hne Hd Hv. unfold Number. fold l.
  assert (Hplain : Forall (fun c => is_space c = false
                     ∧ (Ascii.eqb c "e" || Ascii.eqb c "E") = false
                     ∧ Ascii.eqb "." c = false) l).
  { eapply Forall_impl; [exact Hd|]. apply decimal_plain. }
  assert (Htrim : trim l = l).
  { unfold trim.
    set (drop_ws := fix go (l0 : list ascii) : list ascii :=
           match l0 with
           | [] => []
           | c :: l' => if is_space c then go l' else l0
           end).
    assert (Hdrop : ∀ k, Forall (fun c => is_space c = false) k → drop_ws k = k).
    { intros k Hk. destruct Hk as [|c k Hc Hk]; [done|]. simpl. by rewrite Hc. }
    assert (Hsp : Forall (fun c => is_space c = false) l).
    { eapply Forall_impl; [exact Hplain|]. by intros c [? _]. }
    rewrite (Hdrop l) by done.
    rewrite Hdrop by (by apply Forall_rev).
    apply rev_involutive. }
  rewrite Htrim.
  assert (Hun : parse_unsigned l = Finite (inject_Z v)).
  { unfold parse_unsigned.
    destruct (decide (l = list_ascii_of_string "Infinity")) as [Heq|_].
    { rewrite Heq in Hd. apply Forall_cons in Hd as [Hd _]. discriminate Hd. }
    rewrite split_on_none by (eapply Forall_impl; [exact Hplain|]; by intros c (_ & ? & _)).
    unfold parse_mantissa.
    rewrite split_on_none by (eapply Forall_impl; [exact Hplain|]; by intros c (_ & _ & ?)).
    unfold parse_digits. destruct l as [|c k]; [done|]. rewrite Hv. simpl.
    f_equal. unfold pow10. simpl. unfold Qmult. simpl. rewrite Z.mul_1_r.
    apply Qred_inject_Z. }
  destruct l as [|c k]; [done|].
  apply Forall_cons in Hd as [Hc Hk].
  destruct c as [[] [] [] [] [] [] [] []]; try discriminate Hc; try exact Hun.
  destruct k as [|c1 k]; [exact Hun|].
  apply Forall_cons in Hk as [Hc1 _].
  destruct c1 as [[] [] [] [] [] [] [] []]; try discriminate Hc1; exact Hun.
Qed.

Lemma Number_String n : 0 ≤ n → Number (String_ n) = Finite (inject_Z n).
Proof.
  intros Hn. destruct n as [|p|p]; [reflexivity| |lia].
  pose proof (DecimalPos.Unsigned.to_uint_nonnil p) as Hnil.
  assert (String_ (Z.pos p) = NilEmpty.string_of_uint (Pos.to_uint p)) as ->.
  { unfold String_. simpl. by destruct (Pos.to_uint p). }
  apply Number_decimal.
  - by destruct (Pos.to_uint p).
  - apply uint_chars_decimal.
  - by rewrite digits_of_uint, DecimalPos.Unsigned.of_to.
Qed.

Lemma wait_of_seconds (res : Response) (n : Z) :
  0 ≤ n → retry_after res = Some (String_ n) →
  waitSec res = of_Z n
  ∧ mul (waitSec res) (of_Z 1000) = of_Z (n * 1000)
  ∧ timer_ms (mul (waitSec res) (of_Z 1000))
    = if decide (1 ≤ n * 1000 ≤ TIMEOUT_MAX) then n * 1000 else 1.
Proof.
  intros Hn Hh.
  assert (Hw : waitSec res = of_Z n).
  { unfold waitSec. rewrite Hh.
    assert (truthy (String_ n) = true) as ->.
    { destruct n as [|p|p]; [done| |lia]. unfold String_. simpl.
      pose proof (DecimalPos.Unsigned.to_uint_nonnil p).
      by destruct (Pos.to_uint p). }
    by apply Number_String. }
  assert (Hm : mul (waitSec res) (of_Z 1000) = of_Z (n * 1000)).
  { rewrite Hw. unfold mul, of_Z. f_equal. unfold Qmult. simpl.
    apply Qred_inject_Z. }
  split; [done|]. split; [done|]. rewrite Hm.
  destruct (decide (1 ≤ n * 1000 ≤ TIMEOUT_MAX)) as [Hr|Hr].
  - by apply timer_ms_of_Z.
  - unfold timer_ms, of_Z.
    destruct (Qle_bool 1 (inject_Z (n * 1000))) eqn:H1; [|done].
    destruct (Qle_bool (inject_Z (n * 1000)) (inject_Z TIMEOUT_MAX)) eqn:H2; [|done].
    apply Qle_bool_iff in H1, H2. change 1%Q with (inject_Z 1) in H1.
    rewrite <- Zle_Qle in H1, H2. lia.
Qed.



Lemma throttle_clock c w c' w' :
  Forall (fun d => 0 ≤ d) (slack w) → throttle c w = (c', w') →
  clock w ≤ clock w' ∧ Forall (fun d => 0 ≤ d) (slack w').
Proof.
  intros Hsl. unfold throttle.
  destruct (throttle_check (clock w) c) as [c1 [waitMs|]];
    intros H; injection H as <- <-; unfold sleep, elapse, log;
    cbn [clock slack]; [|split; [lia|done]].
  pose proof (timer_ms_pos (of_Z waitMs)). pose proof (slack_hd _ Hsl).
  split; [lia|by apply slack_tl].
Qed.

(** X6.  The retry is not sent before the time the server asked for has
    passed: after a 429 with a Retry-After of [n] seconds, the call ends at
    least [n * 1000] ms after it began. *)
Theorem retry_waits_as_asked m path b (res : Response) (n : Z) final rest c w :
  1 ≤ n * 1000 ≤ TIMEOUT_MAX →
  status res = 429 → retry_after res = Some (String_ n) →
  not_429 final →
  Forall (fun d => 0 ≤ d) (slack w) →
  clock w + n * 1000
  ≤ clock (request m path b (Resolved res :: final :: rest) c w).2.
Proof.
  intros Hn H429 Hh Hfinal Hsl.
  destruct (wait_of_seconds res n) as (_ & _ & Ht); [lia|done|].
  destruct (decide (1 ≤ n * 1000 ≤ TIMEOUT_MAX)); [|done].
  rewrite request_eq. destruct (throttle c w) as [c1 w1] eqn:Ht1.
  apply throttle_clock in Ht1 as [Hc1 Hs1]; [|done].
  destruct (decide (status res = 429)); [|done].
  remember (elapse 0 (log (EvFetch (build_request c1 m path b)) w1)) as w2 eqn:Hw2.
  cbv zeta.
  assert (Hc2 : clock w1 ≤ clock w2 ∧ Forall (fun d => 0 ≤ d) (slack w2)).
  { rewrite Hw2. simpl. pose proof (slack_hd _ Hs1). split; [lia|by apply slack_tl]. }
  destruct Hc2 as [Hc2 Hs2].
  remember (sleep Backoff (mul (waitSec res) (of_Z 1000)) w2) as w3 eqn:Hw3.
  assert (Hc3 : clock w2 + n * 1000 ≤ clock w3 ∧ Forall (fun d => 0 ≤ d) (slack w3)).
  { pose proof (clock_sleep w2 Backoff (mul (waitSec res) (of_Z 1000)) Hs2) as H.
    rewrite Ht, <- Hw3 in H. split; [done|]. rewrite Hw3. simpl. by apply slack_tl. }
  destruct Hc3 as [Hc3 Hs3].
  rewrite request_eq. destruct (throttle c1 w3) as [c4 w4] eqn:Ht4.
  apply throttle_clock in Ht4 as [Hc4 Hs4]; [|done]. cbv zeta.
  assert (Hc5 : clock w4
                ≤ clock (elapse 0 (log (EvFetch (build_request c4 m path b)) w4))).
  { simpl. pose proof (slack_hd _ Hs4). lia. }
  destruct final as [res'|err]; simpl in Hfinal.
  - destruct (decide (status res' = 429)); [done|].
    destruct (negb (ok res')); [|destruct (json_result res')];
      cbn [snd]; lia.
  - cbn [snd]. lia.
Qed.

Lemma retry_waits_as_asked_witness :
  1 ≤ 2 * 1000 ≤ TIMEOUT_MAX
  ∧ status throttled_2s = 429 ∧ retry_after throttled_2s = Some (String_ 2)
  ∧ Forall (fun d => 0 ≤ d) (slack epoch)
  ∧ 0 + 2 * 1000
    ≤ clock (request "GET" "/users/u" None
               [Resolved throttled_2s; Resolved (answer 200 "OK" JNull)]
               (fresh "k") epoch).2.
Proof.
  assert (H1 : 1 ≤ 2 * 1000 ≤ TIMEOUT_MAX) by (unfold TIMEOUT_MAX; lia).
  assert (H2 : Forall (fun d => 0 ≤ d) (slack epoch)) by constructor.
  split; [exact H1|]. split; [reflexivity|]. split; [reflexivity|].
  split; [exact H2|].
  refine (retry_waits_as_asked "GET" "/users/u" None throttled_2s 2
            (Resolved (answer 200 "OK" JNull)) [] (fresh "k") epoch
            H1 eq_refl eq_refl _ H2).
  simpl. lia.
Defined.

(** X14.  A failure answer of the API reaches the user of any tool as the
    error envelope whose text gives the status code, the status text and
    the body of the answer. *)
Theorem tools_report_api_errors op (res : Response) rest a w c :
  getClient a = Return c →
  status res ≠ 429 → ok res = false →
  (invoke op (Resolved res :: rest) a w).1.1
  = ({| text := Plain ("Error: Notion API error (" +:+ String_ (status res) +:+
                       " " +:+ statusText res +:+ "): " +:+
                       default "" (text_result res));
        isError := Some true |}, rest).
Proof.
  intros Hc H429 Hok.
  destruct (perform op (Resolved res :: rest) c w) as [[[r srv'] c'] w'] eqn:Hp.
  rewrite (invoke_with_client _ _ _ _ _ _ _ _ _ Hc Hp). simpl.
  rewrite perform_request in Hp. destruct (request_args op) as [[m path] b].
  apply (request_retry_chain m path b [] (Resolved res) rest) in Hp
    as (-> & -> & _ & _); [|done|done].
  simpl. by rewrite Hok.
Qed.

Lemma tools_report_api_errors_witness :
  (invoke (GetPage "p") [Resolved not_found] configured epoch).1.1
  = ({| text := Plain "Error: Notion API error (404 Not Found): not_found";
        isError := Some true |}, []).
Proof.
  assert (H : status not_found ≠ 429) by (simpl; lia).
  exact (tools_report_api_errors (GetPage "p") not_found [] configured epoch
           (fresh "secret") eq_refl H eq_refl).
Defined.
